(** * The equation solver of backend/app.py

    A shallow embedding of [solve_equation] and of the [/solve] handler,
    with the symbolic-algebra library (sympy) taken as a parameter, and
    the properties of the pipeline proved over it. *)

From Stdlib Require Import String Ascii QArith Qabs Qcanon DecimalString.
From stdpp Require Import base option list gmap.

Local Open Scope N_scope.

(** * Python strings

    A Python [str] is a sequence of Unicode code points. *)

Abbreviation pystr := (list N).

(** An ASCII literal of the source, as code points. *)
Definition py (s : string) : pystr := map N_of_ascii (list_ascii_of_string s).
Arguments py : simpl never.

Definition hyphen_minus : N := 0x2d.      (* "-" *)
Definition unicode_minus : N := 0x2212.   (* the minus sign U+2212 *)
Definition caret : N := 0x5e.             (* "^" *)
Definition bar : N := 0x7c.               (* "|" *)
Definition equals_sign : N := 0x3d.       (* "=" *)
Definition dquote : N := 0x22.            (* the double quote *)

(** The literal of line 24, as the interpreter reads it from the UTF-8
    source file: the bytes c3 a2, cb 86, e2 80 99, which are the three
    code points U+00E2, U+02C6, U+2019. *)
Definition minus_literal : pystr := [0xe2; 0x2c6; 0x2019].

(** [s.startswith(p)] *)
Fixpoint startswith (p s : pystr) : bool :=
  match p, s with
  | [], _ => true
  | _ :: _, [] => false
  | a :: p', b :: s' => if decide (a = b) then startswith p' s' else false
  end.

(** [s.replace(old, new)] for a non-empty [old]: the occurrences of [old]
    are found from left to right and do not overlap. [skip] counts the
    characters of the current occurrence that are still to be dropped. *)
Fixpoint replace_go (old new : pystr) (skip : nat) (s : pystr) : pystr :=
  match s with
  | [] => []
  | c :: s' =>
      match skip with
      | S k => replace_go old new k s'
      | O =>
          if startswith old s
          then new ++ replace_go old new (length old - 1) s'
          else c :: replace_go old new 0 s'
      end
  end.

Definition replace (old new s : pystr) : pystr := replace_go old new 0 s.

(** The longest run of characters other than "|" at the head of [s], and
    what follows it: the group [([^|]+)] of the pattern is greedy. *)
Fixpoint span_non_bar (s : pystr) : pystr * pystr :=
  match s with
  | [] => ([], [])
  | c :: s' =>
      if decide (c = bar) then ([], s)
      else let '(g, r) := span_non_bar s' in (c :: g, r)
  end.

(** A match of the pattern [\|([^|]+)\|] at the head of [s]: group 1. *)
Definition match_abs (s : pystr) : option pystr :=
  match s with
  | c :: s' =>
      if decide (c = bar) then
        match span_non_bar s' with
        | ([], _) => None          (* the group needs one character *)
        | (_, []) => None          (* no closing bar *)
        | (g, _ :: _) => Some g
        end
      else None
  | [] => None
  end.

(** [replace_abs], the replacement function of line 29. *)
Definition replace_abs (group1 : pystr) : pystr :=
  py "Abs(" ++ group1 ++ py ")".

(** [re.sub(r'\|([^|]+)\|', replace_abs, s)]: the matches are found from
    left to right and do not overlap; the search resumes after a match. *)
Fixpoint re_sub_go (skip : nat) (s : pystr) : pystr :=
  match s with
  | [] => []
  | c :: s' =>
      match skip with
      | S k => re_sub_go k s'
      | O =>
          match match_abs s with
          | Some g => replace_abs g ++ re_sub_go (S (length g)) s'
          | None => c :: re_sub_go 0 s'
          end
      end
  end.

Definition re_sub_abs (s : pystr) : pystr := re_sub_go 0 s.

(** [old] occurs in [s]. *)
Definition occurs (old s : pystr) : Prop := ∃ a b, s = a ++ old ++ b.

(** Lines 24 to 32: the normalisation of the input. *)
Definition normalize (equation_str : pystr) : pystr :=
  let equation_str := replace minus_literal (py "-") equation_str in
  let equation_str := replace (py "^") (py "**") equation_str in
  re_sub_abs equation_str.

(** [c.isspace()], the characters that [str.strip()] removes. *)
Definition isspace (c : N) : bool :=
  ((0x09 <=? c) && (c <=? 0x0d)) || ((0x1c <=? c) && (c <=? 0x20))
  || (c =? 0x85) || (c =? 0xa0) || (c =? 0x1680)
  || ((0x2000 <=? c) && (c <=? 0x200a))
  || (c =? 0x2028) || (c =? 0x2029) || (c =? 0x202f) || (c =? 0x205f)
  || (c =? 0x3000).

Fixpoint lstrip (s : pystr) : pystr :=
  match s with
  | c :: s' => if isspace c then lstrip s' else s
  | [] => []
  end.

Definition rstrip (s : pystr) : pystr := reverse (lstrip (reverse s)).

(** [s.strip()] *)
Definition strip (s : pystr) : pystr := rstrip (lstrip s).

(** [sep in s] for a one-character [sep]. *)
Definition contains (sep : N) (s : pystr) : bool :=
  existsb (N.eqb sep) s.

(** [s.split(sep, 1)] for a one-character [sep]: one part when [sep] does
    not occur, else the text before the first [sep] and the text after. *)
Fixpoint split1 (sep : N) (s : pystr) : list pystr :=
  match s with
  | [] => [[]]
  | c :: s' =>
      if decide (c = sep) then [[]; s']
      else match split1 sep s' with
           | p :: ps => (c :: p) :: ps
           | [] => [[c]]
           end
  end.

(** [sep.join(l)] *)
Fixpoint join (sep : pystr) (l : list pystr) : pystr :=
  match l with
  | [] => []
  | [x] => x
  | x :: l' => x ++ sep ++ join sep l'
  end.

(** The order [<] of Python strings: lexicographic on code points. *)
Fixpoint str_lt (a b : pystr) : bool :=
  match a, b with
  | _, [] => false
  | [], _ :: _ => true
  | x :: a', y :: b' => (x <? y) || ((x =? y) && str_lt a' b')
  end.

(** [sorted(l, key=key)]: the sort is stable and compares keys with [<]. *)
Section Sorted.
Context {A : Type} (key : A → pystr).

Fixpoint insert_sorted (x : A) (l : list A) : list A :=
  match l with
  | [] => [x]
  | y :: l' =>
      if str_lt (key y) (key x) then y :: insert_sorted x l'
      else x :: l
  end.

Definition sorted (l : list A) : list A := foldr insert_sorted [] l.

End Sorted.

(** * Exceptions

    [ValueError] stands for the class and its subclasses, which are what
    [except ValueError] catches; [OtherException] for every other subclass
    of [Exception], with the name of its class. [exn_str] is [str(e)]. *)

Inductive exc_class :=
  | ValueError
  | OtherException (name : string).

Record exn := Exn { exn_class : exc_class; exn_str : pystr }.

Inductive result (A : Type) :=
  | Ok (a : A)
  | Raise (e : exn).
Arguments Ok {A} a.
Arguments Raise {A} e.

#[global] Instance result_ret : MRet result := λ A a, Ok a.
#[global] Instance result_bind : MBind result := λ A B f m,
  match m with
  | Ok a => f a
  | Raise e => Raise e
  end.

(** [try: body except Exception as e: raise ValueError(f"<prefix>{str(e)}")] *)
Definition reraise_ValueError {A} (prefix : pystr) (body : result A) : result A :=
  match body with
  | Ok a => Ok a
  | Raise e => Raise (Exn ValueError (prefix ++ exn_str e))
  end.

Definition no_variable_message : pystr :=
  py "No variable found in the equation. Please include a variable like 'x'.".

(** [l[0]] *)
Definition index0 {A} (l : list A) : result A :=
  match l with
  | x :: _ => Ok x
  | [] => Raise (Exn (OtherException "IndexError") (py "list index out of range"))
  end.

(** * The symbolic engine

    What [solve_equation] uses of sympy. The calls that run an algorithm of
    the library return a [result], and so does [Eq], which evaluates the
    equality and may raise; attribute reads are total. A set of symbols is
    a [gset]; the set of [Abs] atoms is given as the list that [list(...)]
    makes of it; a solution is the dict that [solve(..., dict=True)]
    returns for it. *)

Class Engine := {
  Expr : Type;
  Symbol : Type;
  Expr_eq_dec :: EqDecision Expr;
  Symbol_eq_dec :: EqDecision Symbol;
  Symbol_countable :: Countable Symbol;
  (** [parse_expr(text, transformations='all')] *)
  parse_expr : pystr → result Expr;
  (** [Eq(lhs, rhs)] and the integer [0] *)
  Eq : Expr → Expr → result Expr;
  zero : Expr;
  (** [e.lhs], [e.rhs], [e.free_symbols], [list(e.atoms(Abs))] *)
  lhs : Expr → Expr;
  rhs : Expr → Expr;
  free_symbols : Expr → gset Symbol;
  atoms_Abs : Expr → list Expr;
  (** [e.args[0]], [e.is_number], [-e], [str(e)], [str(var)] *)
  arg0 : Expr → Expr;
  is_number : Expr → bool;
  neg : Expr → Expr;
  str : Expr → pystr;
  sym_str : Symbol → pystr;
  (** [solve(e, var, dict=True)], and with [domain=S.Reals] when the flag
      is set *)
  solve : Expr → Symbol → bool → result (list (gmap Symbol Expr));
  (** [simplify(e)], [e.evalf()], [format(e, spec)] *)
  simplify : Expr → result Expr;
  evalf : Expr → result Expr;
  format_spec : Expr → pystr → result pystr
}.

(** * solve_equation *)

Section Core.
Context `{Engine}.

(** Lines 35 to 55: the two sides of the equation, or the expression
    equated to zero. *)
Definition parse_equation (equation_str : pystr) : result Expr :=
  if contains equals_sign equation_str then
    let parts := split1 equals_sign equation_str in
    match parts with
    | [p0; p1] =>
        let left_str := strip p0 in
        let right_str := strip p1 in
        '(left_expr, right_expr) ←
          reraise_ValueError (py "Could not parse equation: ")
            (left_expr ← parse_expr left_str;
             right_expr ← parse_expr right_str;
             mret (left_expr, right_expr));
        Eq left_expr right_expr
    | _ => Raise (Exn ValueError (py "Invalid equation format"))
    end
  else
    reraise_ValueError (py "Could not parse expression: ")
      (expr ← parse_expr (strip equation_str);
       Eq expr zero).

(** Lines 58 to 67: the variable to solve for. *)
Definition select_var (equation : Expr) : result Symbol :=
  let symbols_in_eq := free_symbols equation in
  if decide (elements symbols_in_eq = []) then
    Raise (Exn ValueError no_variable_message)
  else if decide (1 < size symbols_in_eq)%nat then
    index0 (sorted sym_str (elements symbols_in_eq))
  else
    index0 (elements symbols_in_eq).

(** Line 77: the side of the equation that does not hold [abs_expr]. *)
Definition other_side (equation abs_expr : Expr) : Expr :=
  if decide (abs_expr ∈ atoms_Abs (lhs equation))
  then rhs equation else lhs equation.

(** Lines 71 to 88: the list of solutions. *)
Definition solve_dispatch (equation : Expr) (var : Symbol)
  : result (list (gmap Symbol Expr)) :=
  let abs_atoms := atoms_Abs equation in
  match abs_atoms with
  | abs_expr :: _ =>
      if decide (length abs_atoms = 1%nat) then
        let inner_expr := arg0 abs_expr in
        let other_side := other_side equation abs_expr in
        if is_number other_side then
          eq1 ← Eq inner_expr other_side;
          eq2 ← Eq inner_expr (neg other_side);
          s1 ← solve eq1 var false;
          s2 ← solve eq2 var false;
          mret (s1 ++ s2)
        else solve equation var true
      else solve equation var true
  | [] => solve equation var false
  end.

(** [format_value], line 93. *)
Definition format_value (value : Expr) : result pystr :=
  value ← simplify value;
  if is_number value
  then (number ← evalf value; format_spec number (py ".1f"))
  else mret (str value).


(** [sol[var]] *)
Definition getitem (sol : gmap Symbol Expr) (var : Symbol) : result Expr :=
  match sol !! var with
  | Some value => Ok value
  | None => Raise (Exn (OtherException "KeyError") (sym_str var))
  end.

(** [f'{var} = "{text}"'] *)
Definition quoted (var : Symbol) (text : pystr) : pystr :=
  sym_str var ++ py " = " ++ [dquote] ++ text ++ [dquote].

(** [f'{var} = "{format_value(sol[var])}"'] *)
Definition format_solution (var : Symbol) (sol : gmap Symbol Expr) : result pystr :=
  value ← getitem sol var;
  text ← format_value value;
  mret (quoted var text).

(** The items of a generator, in order, up to the first that raises. *)
Fixpoint collect {A B} (f : A → result B) (l : list A) : result (list B) :=
  match l with
  | [] => Ok []
  | x :: l' => y ← f x; ys ← collect f l'; mret (y :: ys)
  end.

(** Lines 90 to 101: the text of the answer. *)
Definition format_result (var : Symbol) (solutions : list (gmap Symbol Expr))
  : result pystr :=
  match solutions with
  | [] => Ok (py "No solution found for " ++ sym_str var ++ py ".")
  | sol0 :: _ =>
      if decide (length solutions = 1%nat) then format_solution var sol0
      else (items ← collect (format_solution var) solutions;
            mret (join (py ", ") items))
  end.

Definition solve_equation (equation_str : pystr) : result pystr :=
  let equation_str := normalize equation_str in
  equation ← parse_equation equation_str;
  var ← select_var equation;
  reraise_ValueError (py "Could not solve equation: ")
    (solutions ← solve_dispatch equation var;
     format_result var solutions).


(** [e] is one of the four errors that solve_equation raises itself. *)
Definition own_error (e : exn) : Prop :=
  exn_class e = ValueError ∧
  ∃ m, exn_str e = py "Could not parse equation: " ++ m
       ∨ exn_str e = py "Could not parse expression: " ++ m
       ∨ exn_str e = no_variable_message
       ∨ exn_str e = py "Could not solve equation: " ++ m.

(** [e] is what [Eq] raises on line 49 for the two parsed sides of [text]. *)
Definition Eq_error (text : pystr) (e : exn) : Prop :=
  ∃ before after l r,
    text = before ++ equals_sign :: after ∧ (equals_sign ∉ before) ∧
    parse_expr (strip before) = Ok l ∧ parse_expr (strip after) = Ok r ∧
    Eq l r = Raise e.

End Core.

(** * The /solve handler *)

(** [jsonify({key: value}), status] *)
Record response := Response { body : list (pystr * pystr); status : N }.

Section Handler.
(** The core that the handler calls, [solve_equation]. *)
Context (solve_equation : pystr → result pystr).

(** [solve], line 118; [arg] is [request.args.get("equation")]. *)
Definition solve_handler (arg : option pystr) : response :=
  let equation := strip (default [] arg) in
  if decide (equation = []) then
    Response [(py "error", py "Missing 'equation' query parameter")] 400
  else
    match solve_equation equation with
    | Ok result => Response [(py "result", result)] 200
    | Raise (Exn ValueError msg) => Response [(py "error", msg)] 400
    | Raise (Exn (OtherException _) msg) =>
        Response [(py "error", py "Error solving equation: " ++ msg)] 500
    end.

End Handler.

(** * The response headers

    [response.headers] is the header list of the framework: a list of
    pairs whose names are compared without regard to case. [lower] is
    [str.lower]. *)

Section Headers.
Context (lower : pystr → pystr).

(** [headers[key] = value]: the first pair of that name is replaced, the
    later ones are dropped; without one, the pair is appended. *)
Fixpoint headers_set (headers : list (pystr * pystr)) (key value : pystr)
  : list (pystr * pystr) :=
  match headers with
  | [] => [(key, value)]
  | (old_key, old_value) :: rest =>
      if decide (lower old_key = lower key)
      then (key, value) :: filter (λ t, lower t.1 ≠ lower key) rest
      else (old_key, old_value) :: headers_set rest key value
  end.

(** [headers.get(key)]: the value of the first pair of that name. *)
Fixpoint headers_get (headers : list (pystr * pystr)) (key : pystr) : option pystr :=
  match headers with
  | [] => None
  | (old_key, old_value) :: rest =>
      if decide (lower old_key = lower key) then Some old_value
      else headers_get rest key
  end.

(** [add_cors_headers], line 111, on the headers of the response. *)
Definition add_cors_headers (headers : list (pystr * pystr)) : list (pystr * pystr) :=
  let headers := headers_set headers (py "Access-Control-Allow-Origin") (py "*") in
  let headers := headers_set headers (py "Access-Control-Allow-Methods") (py "GET, OPTIONS") in
  headers_set headers (py "Access-Control-Allow-Headers") (py "Content-Type").

(** The three names of [add_cors_headers] differ, case apart. *)
Definition cors_names_differ : Prop :=
  lower (py "Access-Control-Allow-Origin") ≠ lower (py "Access-Control-Allow-Methods") ∧
  lower (py "Access-Control-Allow-Origin") ≠ lower (py "Access-Control-Allow-Headers") ∧
  lower (py "Access-Control-Allow-Methods") ≠ lower (py "Access-Control-Allow-Headers").

(** [name] is one of the three names, case apart. *)
Definition is_cors_name (name : pystr) : Prop :=
  lower name = lower (py "Access-Control-Allow-Origin") ∨
  lower name = lower (py "Access-Control-Allow-Methods") ∨
  lower name = lower (py "Access-Control-Allow-Headers").

End Headers.

(** [str.lower] on the letters A to Z, the other characters kept. *)
Definition ascii_lower (s : pystr) : pystr :=
  map (λ c, if (0x41 <=? c) && (c <=? 0x5a) then c + 0x20 else c) s.

(** The characters that the normalisation reads or writes: those of the
    literal of line 24, "-", "^", "*", "|" and those of "Abs()". *)
Definition normalizer_alphabet : pystr :=
  minus_literal ++ py "-^*|Abs()".

(** * A reference engine

    A small engine that follows sympy on equations of degree one and two
    with rational coefficients, on which the pipeline can be run: integer
    literals, one-letter symbols, [+], [-], [*], [/], [**], juxtaposition,
    parentheses, [Abs(...)] and [lambda]. Sums, products and powers of
    numbers are folded as they are built, and [Eq] evaluates to true or
    false when the sign of the difference of its sides is known. *)

Module Ref.

Inductive expr :=
  | Num (q : Q)
  | ImagUnit
  | Sym (name : pystr)
  | Add (a b : expr)
  | Mul (a b : expr)
  | Neg (a : expr)
  | Div (a b : expr)
  | Pow (a : expr) (n : N)
  | Abs (a : expr)
  | Equ (l r : expr)
  | Bool (b : bool)
  | Lambda (param : pystr) (body : expr).

#[global] Instance Q_eq_dec : EqDecision Q.
Proof. solve_decision. Defined.

#[global] Instance expr_eq_dec : EqDecision expr.
Proof. solve_decision. Defined.

Inductive token :=
  | TNum (n : N)
  | TSym (c : N)
  | TAbs
  | TLambda
  | TColon
  | TLpar
  | TRpar
  | TPlus
  | TMinus
  | TStar
  | TPower
  | TSlash.

Definition is_digit (c : N) : bool := (0x30 <=? c) && (c <=? 0x39).
Definition is_letter (c : N) : bool :=
  ((0x41 <=? c) && (c <=? 0x5a)) || ((0x61 <=? c) && (c <=? 0x7a)).

Definition flush (num : option N) (ts : list token) : list token :=
  match num with
  | Some n => TNum n :: ts
  | None => ts
  end.

(** [num] is the integer literal being read, [skip] the characters of a
    name or of an operator that are still to be dropped. *)
Fixpoint tokenize (num : option N) (skip : nat) (s : pystr) : option (list token) :=
  match s with
  | [] => Some (flush num [])
  | c :: s' =>
      match skip with
      | S k => tokenize num k s'
      | O =>
          if is_digit c then tokenize (Some (10 * default 0 num + (c - 0x30))) 0 s'
          else
            flush num <$>
              (if isspace c then tokenize None 0 s'
               else if startswith (py "Abs(") s then cons TAbs <$> tokenize None 2 s'
               else if startswith (py "lambda ") s then cons TLambda <$> tokenize None 5 s'
               else if startswith (py "**") s then cons TPower <$> tokenize None 1 s'
               else if is_letter c then cons (TSym c) <$> tokenize None 0 s'
               else if c =? 0x28 then cons TLpar <$> tokenize None 0 s'
               else if c =? 0x29 then cons TRpar <$> tokenize None 0 s'
               else if c =? 0x2b then cons TPlus <$> tokenize None 0 s'
               else if c =? 0x2d then cons TMinus <$> tokenize None 0 s'
               else if c =? 0x2a then cons TStar <$> tokenize None 0 s'
               else if c =? 0x2f then cons TSlash <$> tokenize None 0 s'
               else if c =? 0x3a then cons TColon <$> tokenize None 0 s'
               else None)
      end
  end.

Definition num_of (n : N) : expr := Num (Z.of_N n # 1).

Definition is_zero (q : Q) : bool := Qeq_bool q 0.

(** The constructors as the engine applies them: numbers are folded. *)
Definition mk_neg (a : expr) : expr :=
  match a with
  | Num q => Num (Qred (- q))
  | _ => Neg a
  end.

Definition mk_add (a b : expr) : expr :=
  match a, b with
  | Num x, Num y => Num (Qred (x + y))
  | Num x, _ => if is_zero x then b else Add a b
  | _, Num y => if is_zero y then a else Add a b
  | _, _ => Add a b
  end.

Definition mk_mul (a b : expr) : expr :=
  match a, b with
  | Num x, Num y => Num (Qred (x * y))
  | Num x, _ =>
      if is_zero x then Num 0 else if Qeq_bool x 1 then b else Mul a b
  | _, Num y =>
      if is_zero y then Num 0 else if Qeq_bool y 1 then a else Mul a b
  | _, _ => Mul a b
  end.

Definition mk_div (a b : expr) : expr :=
  match a, b with
  | Num x, Num y => if is_zero y then Div a b else Num (Qred (x / y))
  | Num x, _ => if is_zero x then Num 0 else Div a b
  | _, _ => Div a b
  end.

Definition mk_pow (a : expr) (n : N) : expr :=
  match a with
  | Num x => Num (Qred (Qpower x (Z.of_N n)))
  | _ => if n =? 0 then Num 1 else if n =? 1 then a else Pow a n
  end.

Definition mk_abs (a : expr) : expr :=
  match a with
  | Num x => Num (Qred (Qabs x))
  | _ => Abs a
  end.

(** Recursive descent; [fuel] bounds the depth of the calls. *)
Fixpoint p_expr (fuel : nat) (ts : list token) : option (expr * list token) :=
  match fuel with
  | O => None
  | S fuel =>
      match ts with
      | TMinus :: ts' => '(t, r) ← p_term fuel ts'; p_sum fuel (mk_neg t) r
      | _ => '(t, r) ← p_term fuel ts; p_sum fuel t r
      end
  end
with p_sum (fuel : nat) (acc : expr) (ts : list token) : option (expr * list token) :=
  match fuel with
  | O => None
  | S fuel =>
      match ts with
      | TPlus :: ts' => '(t, r) ← p_term fuel ts'; p_sum fuel (mk_add acc t) r
      | TMinus :: ts' =>
          '(t, r) ← p_term fuel ts'; p_sum fuel (mk_add acc (mk_neg t)) r
      | _ => Some (acc, ts)
      end
  end
with p_term (fuel : nat) (ts : list token) : option (expr * list token) :=
  match fuel with
  | O => None
  | S fuel => '(f, r) ← p_power fuel ts; p_prod fuel f r
  end
with p_prod (fuel : nat) (acc : expr) (ts : list token) : option (expr * list token) :=
  match fuel with
  | O => None
  | S fuel =>
      match ts with
      | TStar :: ts' => '(f, r) ← p_power fuel ts'; p_prod fuel (mk_mul acc f) r
      | TSlash :: ts' => '(f, r) ← p_power fuel ts'; p_prod fuel (mk_div acc f) r
      | TNum _ :: _ | TSym _ :: _ | TAbs :: _ | TLpar :: _ =>
          '(f, r) ← p_power fuel ts; p_prod fuel (mk_mul acc f) r
      | _ => Some (acc, ts)
      end
  end
with p_power (fuel : nat) (ts : list token) : option (expr * list token) :=
  match fuel with
  | O => None
  | S fuel =>
      '(b, r) ← p_factor fuel ts;
      match r with
      | TPower :: TNum n :: r' => Some (mk_pow b n, r')
      | TPower :: _ => None
      | _ => Some (b, r)
      end
  end
with p_factor (fuel : nat) (ts : list token) : option (expr * list token) :=
  match fuel with
  | O => None
  | S fuel =>
      match ts with
      | TNum n :: r => Some (num_of n, r)
      | TSym c :: r => Some (Sym [c], r)
      | TAbs :: TLpar :: r =>
          match p_expr fuel r with
          | Some (e, TRpar :: r') => Some (mk_abs e, r')
          | _ => None
          end
      | TLpar :: r =>
          match p_expr fuel r with
          | Some (e, TRpar :: r') => Some (e, r')
          | _ => None
          end
      | _ => None
      end
  end.

(** An expression, or [lambda c: expression]. *)
Definition p_top (fuel : nat) (ts : list token) : option (expr * list token) :=
  match ts with
  | TLambda :: TSym c :: TColon :: r =>
      '(body, r') ← p_expr fuel r; Some (Lambda [c] body, r')
  | _ => p_expr fuel ts
  end.

Definition parse_expr (text : pystr) : result expr :=
  let syntax_error := Raise (Exn (OtherException "SyntaxError") (py "invalid syntax")) in
  match tokenize None 0 text with
  | Some ts =>
      match p_top (5 * S (length ts)) ts with
      | Some (e, []) => Ok e
      | _ => syntax_error
      end
  | None => syntax_error
  end.

Fixpoint free_symbols (e : expr) : gset pystr :=
  match e with
  | Num _ | ImagUnit | Bool _ => ∅
  | Sym name => {[ name ]}
  | Add a b | Mul a b | Div a b | Equ a b => free_symbols a ∪ free_symbols b
  | Neg a | Abs a | Pow a _ => free_symbols a
  | Lambda param body => free_symbols body ∖ {[ param ]}
  end.

Fixpoint abs_terms (e : expr) : list expr :=
  match e with
  | Num _ | ImagUnit | Bool _ | Sym _ => []
  | Add a b | Mul a b | Div a b | Equ a b => abs_terms a ++ abs_terms b
  | Neg a | Pow a _ | Lambda _ a => abs_terms a
  | Abs a => e :: abs_terms a
  end.

Definition atoms_Abs (e : expr) : list expr := remove_dups (abs_terms e).

Definition lhs (e : expr) : expr := match e with Equ l _ => l | _ => e end.
Definition rhs (e : expr) : expr := match e with Equ _ r => r | _ => e end.
Definition arg0 (e : expr) : expr :=
  match e with
  | Add a _ | Mul a _ | Div a _ | Neg a | Pow a _ | Abs a | Equ a _ => a
  | _ => e
  end.

Definition is_number (e : expr) : bool :=
  match e with
  | Equ _ _ | Bool _ | Lambda _ _ => false
  | _ => bool_decide (free_symbols e = ∅)
  end.

(** [e] as [c2 * var^2 + c1 * var + c0]. *)
Fixpoint quad (var : pystr) (e : expr) : option (Q * Q * Q) :=
  match e with
  | Num q => Some (0%Q, 0%Q, q)
  | Sym name => if decide (name = var) then Some (0%Q, 1%Q, 0%Q) else None
  | Add x y =>
      '(a2, a1, a0) ← quad var x; '(b2, b1, b0) ← quad var y;
      Some (Qred (a2 + b2), Qred (a1 + b1), Qred (a0 + b0))
  | Neg x => '(a2, a1, a0) ← quad var x; Some (Qred (- a2), Qred (- a1), Qred (- a0))
  | Mul x y =>
      '(a2, a1, a0) ← quad var x; '(b2, b1, b0) ← quad var y;
      if is_zero (a2 * b2) && is_zero (a2 * b1 + a1 * b2)
      then Some (Qred (a2 * b0 + a1 * b1 + a0 * b2), Qred (a1 * b0 + a0 * b1),
                 Qred (a0 * b0))
      else None
  | Div x y =>
      '(a2, a1, a0) ← quad var x; '(b2, b1, b0) ← quad var y;
      if is_zero b2 && is_zero b1 && negb (is_zero b0)
      then Some (Qred (a2 / b0), Qred (a1 / b0), Qred (a0 / b0))
      else None
  | Pow x n =>
      '(a2, a1, a0) ← quad var x;
      if is_zero a2 && is_zero a1 then Some (0%Q, 0%Q, Qred (Qpower a0 (Z.of_N n)))
      else if (n =? 2) && is_zero a2
      then Some (Qred (a1 * a1), Qred (2 * a1 * a0), Qred (a0 * a0))
      else None
  | Abs x =>
      '(a2, a1, a0) ← quad var x;
      if is_zero a2 && is_zero a1 then Some (0%Q, 0%Q, Qred (Qabs a0)) else None
  | ImagUnit | Equ _ _ | Bool _ | Lambda _ _ => None
  end.

(** [e] as [a * var + b]. *)
Definition linear (var : pystr) (e : expr) : option (Q * Q) :=
  '(a2, a1, a0) ← quad var e;
  if is_zero a2 then Some (a1, a0) else None.

(** What is known of the sign of an expression. *)
Inductive sign := SZero | SPos | SNeg | SNonNeg | SNonPos | SUnknown.

Definition sign_neg (s : sign) : sign :=
  match s with
  | SPos => SNeg
  | SNeg => SPos
  | SNonNeg => SNonPos
  | SNonPos => SNonNeg
  | _ => s
  end.

Definition sign_add (s t : sign) : sign :=
  match s, t with
  | SZero, _ => t
  | _, SZero => s
  | SPos, (SPos | SNonNeg) | SNonNeg, SPos => SPos
  | SNeg, (SNeg | SNonPos) | SNonPos, SNeg => SNeg
  | SNonNeg, SNonNeg => SNonNeg
  | SNonPos, SNonPos => SNonPos
  | _, _ => SUnknown
  end.

Definition sign_mul (s t : sign) : sign :=
  match s, t with
  | SZero, _ | _, SZero => SZero
  | SPos, _ => t
  | SNeg, _ => sign_neg t
  | _, SPos => s
  | _, SNeg => sign_neg s
  | SNonNeg, SNonNeg | SNonPos, SNonPos => SNonNeg
  | SNonNeg, SNonPos | SNonPos, SNonNeg => SNonPos
  | _, _ => SUnknown
  end.

Fixpoint sign_of (e : expr) : sign :=
  match e with
  | Num q => match Qnum q with Z0 => SZero | Zpos _ => SPos | Zneg _ => SNeg end
  | Abs a =>
      match sign_of a with
      | SZero => SZero
      | SPos | SNeg => SPos
      | _ => SNonNeg
      end
  | Neg a => sign_neg (sign_of a)
  | Add a b => sign_add (sign_of a) (sign_of b)
  | Mul a b => sign_mul (sign_of a) (sign_of b)
  | Div a b =>
      match sign_of b with
      | SPos | SNeg => sign_mul (sign_of a) (sign_of b)
      | _ => SUnknown
      end
  | Pow a n =>
      match sign_of a with
      | SPos => SPos
      | SNeg => if N.even n then SPos else SNeg
      | SZero => if n =? 0 then SPos else SZero
      | _ => SUnknown
      end
  | _ => SUnknown
  end.

(** The difference of the two sides when it does not depend on the one
    symbol that they hold, or when they hold none. *)
Definition constant_difference (l r : expr) : option Q :=
  match elements (free_symbols l ∪ free_symbols r) with
  | [] => '(_, a) ← linear [] l; '(_, b) ← linear [] r; Some (Qred (a - b))
  | [var] =>
      '(a1, a0) ← linear var l; '(b1, b0) ← linear var r;
      if is_zero (a1 - b1) then Some (Qred (a0 - b0)) else None
  | _ => None
  end.

Definition is_lambda (e : expr) : bool :=
  match e with Lambda _ _ => true | _ => false end.

(** [Eq(l, r)]: true or false when that is known, else the equation; on a
    [lambda] the evaluation raises. *)
Definition Eq (l r : expr) : result expr :=
  if is_lambda l || is_lambda r then
    Raise (Exn (OtherException "IndexError") (py "tuple index out of range"))
  else if decide (l = r) then Ok (Bool true)
  else
    match sign_of (Add l (Neg r)) with
    | SPos | SNeg => Ok (Bool false)
    | SZero => Ok (Bool true)
    | _ =>
        match constant_difference l r with
        | Some d => Ok (Bool (is_zero d))
        | None => Ok (Equ l r)
        end
    end.

(** The root of a square of a rational. *)
Definition sqrt_exact (q : Q) : option Q :=
  let n := Qnum q in
  let d := Zpos (Qden q) in
  if ((Z.sqrt n * Z.sqrt n =? n) && (Z.sqrt d * Z.sqrt d =? d))%Z
  then Some (Z.sqrt n # Z.to_pos (Z.sqrt d))
  else None.

Definition solve (e : expr) (var : pystr) (reals : bool)
  : result (list (gmap pystr expr)) :=
  let not_implemented :=
    Raise (Exn (OtherException "NotImplementedError")
             (py "no algorithms are implemented to solve equation")) in
  let r := match e with Equ _ r => r | _ => Num 0 end in
  match e with
  | Bool _ => Ok []
  | _ =>
      match quad var (lhs e), quad var r with
      | Some (a2, a1, a0), Some (b2, b1, b0) =>
          let c2 := Qred (a2 - b2) in
          let c1 := Qred (a1 - b1) in
          let c0 := Qred (a0 - b0) in
          if is_zero c2 then
            if is_zero c1 then Ok []
            else Ok [ {[ var := Num (Qred (- c0 / c1)) ]} ]
          else if is_zero c1 then
            let k := Qred (- c0 / c2) in
            if is_zero k then Ok [ {[ var := Num 0 ]} ]
            else
              match sqrt_exact (Qabs k) with
              | Some root =>
                  if (0 <? Qnum k)%Z
                  then Ok [ {[ var := Num (Qred (- root)) ]}; {[ var := Num root ]} ]
                  else Ok [ {[ var := mk_mul (Num (Qred (- root))) ImagUnit ]};
                            {[ var := mk_mul (Num root) ImagUnit ]} ]
              | None => not_implemented
              end
          else not_implemented
      | _, Some (b2, b1, b0) =>
          match lhs e with
          | Div n d =>
              match linear var n, linear var d with
              | Some (n1, n0), Some (d1, d0) =>
                  if is_zero n1 && negb (is_zero d1) && is_zero b2 && is_zero b1 then
                    if is_zero b0 then
                      if is_zero n0 then not_implemented else Ok []
                    else Ok [ {[ var := Num (Qred ((n0 / b0 - d0) / d1)) ]} ]
                  else not_implemented
              | _, _ => not_implemented
              end
          | _ => not_implemented
          end
      | _, _ => not_implemented
      end
  end.

Definition simplify (e : expr) : result expr :=
  if is_number e then
    match linear [] e with
    | Some (_, q) => Ok (Num (Qred q))
    | None => Ok e
    end
  else Ok e.

Definition evalf (e : expr) : result expr := Ok e.

Definition decimal (n : N) : pystr := py (NilZero.string_of_uint (N.to_uint n)).

(** Fixed-point text with one digit after the point; a tie goes to the
    even digit. *)
Definition fixed1 (q : Q) : pystr :=
  let m := Z.abs_N (Qnum q) in
  let d := Npos (Qden q) in
  let t := 10 * m in
  let quo := t / d in
  let rem := t mod d in
  let r := if (d <? 2 * rem) || ((2 * rem =? d) && N.odd quo) then quo + 1 else quo in
  (if (Qnum q <? 0)%Z then py "-" else []) ++ decimal (r / 10) ++ py "." ++ decimal (r mod 10).

Definition format_spec (e : expr) (spec : pystr) : result pystr :=
  match e with
  | Num q =>
      if decide (spec = py ".1f") then Ok (fixed1 q)
      else Raise (Exn ValueError (py "Invalid format specifier"))
  | _ => Raise (Exn (OtherException "TypeError") (py "unsupported format string"))
  end.

Fixpoint str (e : expr) : pystr :=
  match e with
  | Num q =>
      (if (Qnum q <? 0)%Z then py "-" else []) ++ decimal (Z.abs_N (Qnum q))
      ++ (if decide (Qden q = 1%positive) then [] else py "/" ++ decimal (Npos (Qden q)))
  | ImagUnit => py "I"
  | Sym name => name
  | Add a b => str a ++ py " + " ++ str b
  | Mul a b => py "(" ++ str a ++ py ")*(" ++ str b ++ py ")"
  | Div a b => py "(" ++ str a ++ py ")/(" ++ str b ++ py ")"
  | Pow a n => py "(" ++ str a ++ py ")**" ++ decimal n
  | Neg a => py "-(" ++ str a ++ py ")"
  | Abs a => py "Abs(" ++ str a ++ py ")"
  | Equ l r => py "Eq(" ++ str l ++ py ", " ++ str r ++ py ")"
  | Bool b => if b then py "True" else py "False"
  | Lambda param body => py "Lambda(" ++ param ++ py ", " ++ str body ++ py ")"
  end.

Definition engine : Engine :=
  Build_Engine expr pystr _ _ _
    parse_expr Eq (Num 0) lhs rhs free_symbols atoms_Abs
    arg0 is_number mk_neg str id solve simplify evalf format_spec.

End Ref.

(** The reference engine with a solver whose second solution leaves the
    variable out. *)
Definition partial_engine : Engine :=
  Build_Engine Ref.expr pystr _ _ _
    Ref.parse_expr Ref.Eq (Ref.Num 0) Ref.lhs Ref.rhs Ref.free_symbols
    Ref.atoms_Abs Ref.arg0 Ref.is_number Ref.mk_neg Ref.str id
    (λ _ var _, Ok [ {[ var := Ref.Num 1 ]}; ∅ ])
    Ref.simplify Ref.evalf Ref.format_spec.

(** * Properties of the string operations *)

Example replace_caret : replace (py "^") (py "**") (py "x^2 - 4") = py "x**2 - 4".
Proof. reflexivity. Qed.

Example re_sub_abs_two :
  re_sub_abs (py "|x - 3| + ||y| = |z") = py "Abs(x - 3) + |Abs(y) = |z".
Proof. reflexivity. Qed.

Example split1_first : split1 equals_sign (py "a = b = c") = [py "a "; py " b = c"].
Proof. reflexivity. Qed.

Example strip_both : strip (py "  x + 1 ") = py "x + 1".
Proof. reflexivity. Qed.

Lemma startswith_spec (p s : pystr) :
  startswith p s = true ↔ ∃ r, s = p ++ r.
Proof.
  revert s. induction p as [|a p IH]; intros s; simpl.
  - split; [intros _; by exists s | done].
  - destruct s as [|b s].
    + split; [done | intros [r Hr]; discriminate].
    + destruct (decide (a = b)) as [->|Hne].
      * rewrite IH. split; intros [r Hr]; exists r; simpl in *; congruence.
      * split; [done | intros [r Hr]; simpl in Hr; congruence].
Qed.

Lemma occurs_cons (old : pystr) (c : N) (s : pystr) :
  occurs old s → occurs old (c :: s).
Proof. intros (a & b & ->). by exists (c :: a), b. Qed.

Lemma replace_absent (old new s : pystr) :
  ¬ occurs old s → replace old new s = s.
Proof.
  unfold replace. induction s as [|c s IH]; intros Hno; simpl; [done|].
  destruct (startswith old (c :: s)) eqn:Hsw.
  - exfalso. apply Hno. apply startswith_spec in Hsw as [r Hr].
    exists [], r. by rewrite Hr.
  - f_equal. apply IH. intros Hocc. by apply Hno, occurs_cons.
Qed.

Lemma occurs_singleton (c : N) (s : pystr) : occurs [c] s → c ∈ s.
Proof. intros (a & b & ->). set_solver. Qed.

Lemma re_sub_abs_no_bar (s : pystr) : bar ∉ s → re_sub_abs s = s.
Proof.
  unfold re_sub_abs. induction s as [|c s IH]; intros Hno; simpl; [done|].
  destruct (decide (c = bar)) as [->|Hne]; [set_solver|].
  f_equal. apply IH. set_solver.
Qed.

(** Without a caret, a bar or the literal of line 24, the input is left as
    it is. *)
Lemma normalize_unchanged (s : pystr) :
  ¬ occurs minus_literal s → caret ∉ s → bar ∉ s → normalize s = s.
Proof.
  intros Hm Hc Hb. unfold normalize.
  rewrite (replace_absent minus_literal) by done.
  rewrite (replace_absent (py "^")) by (intros Ho; by apply occurs_singleton in Ho).
  by apply re_sub_abs_no_bar.
Qed.

(** A character that is not part of [old] survives the replacement. *)
Lemma replace_go_keeps (old new : pystr) (x : N) :
  old ≠ [] → x ∉ old →
  ∀ s skip, x ∈ drop skip s → x ∈ replace_go old new skip s.
Proof.
  intros Hold Hx. induction s as [|c s IH]; intros skip Hin.
  - by rewrite drop_nil in Hin.
  - simpl. destruct skip as [|k]; [|by apply IH].
    rewrite drop_0 in Hin.
    destruct (startswith old (c :: s)) eqn:Hsw.
    + apply startswith_spec in Hsw as [r Hr].
      apply elem_of_app; right. apply IH.
      destruct old as [|o old']; [done|]. simpl in Hr.
      injection Hr as -> ->. simpl. rewrite Nat.sub_0_r, drop_app_length.
      set_solver.
    + apply elem_of_cons in Hin as [->|Hin]; [set_solver|].
      apply elem_of_cons; right. by apply IH.
Qed.

Lemma replace_keeps (old new : pystr) (x : N) (s : pystr) :
  old ≠ [] → x ∉ old → x ∈ s → x ∈ replace old new s.
Proof. intros. by apply replace_go_keeps. Qed.

Lemma span_non_bar_app (s : pystr) :
  s = (span_non_bar s).1 ++ (span_non_bar s).2.
Proof.
  induction s as [|c s IH]; simpl; [done|].
  destruct (decide (c = bar)); [done|].
  destruct (span_non_bar s) as [g r]; simpl in *. by f_equal.
Qed.

Lemma span_non_bar_group (s : pystr) : bar ∉ (span_non_bar s).1.
Proof.
  induction s as [|c s IH]; simpl; [set_solver|].
  destruct (decide (c = bar)); [set_solver|].
  destruct (span_non_bar s) as [g r]; simpl in *. set_solver.
Qed.

Lemma span_non_bar_rest (s : pystr) :
  (span_non_bar s).2 = [] ∨ ∃ r, (span_non_bar s).2 = bar :: r.
Proof.
  induction s as [|c s IH]; simpl; [by left|].
  destruct (decide (c = bar)) as [->|]; [right; by exists s|].
  by destruct (span_non_bar s) as [g r].
Qed.

(** What a match of the pattern at the head of [s] means. *)
Lemma match_abs_spec (s g : pystr) :
  match_abs s = Some g ↔ (g ≠ []) ∧ (bar ∉ g) ∧ (∃ r, s = bar :: g ++ bar :: r).
Proof.
  split.
  - destruct s as [|c s]; simpl; [done|].
    destruct (decide (c = bar)) as [->|]; [|done].
    pose proof (span_non_bar_app s) as Happ.
    pose proof (span_non_bar_group s) as Hg.
    pose proof (span_non_bar_rest s) as Hr.
    destruct (span_non_bar s) as [g' r']; simpl in *.
    destruct g' as [|a g']; [done|]. destruct r' as [|b r']; [done|].
    intros [= <-]. split; [done|]. split; [done|].
    destruct Hr as [|[r [= -> ->]]]; [done|]. exists r. by rewrite Happ.
  - intros (Hne & Hg & r & ->). simpl.
    destruct (decide (bar = bar)); [|done].
    assert (span_non_bar (g ++ bar :: r) = (g, bar :: r)) as ->.
    { clear Hne. induction g as [|a g IH]; simpl.
      - by destruct (decide (bar = bar)).
      - destruct (decide (a = bar)); [set_solver|].
        rewrite IH by set_solver. done. }
    by destruct g.
Qed.

Lemma re_sub_go_head (c : N) (s : pystr) :
  re_sub_go 0 (c :: s) =
    match match_abs (c :: s) with
    | Some g => replace_abs g ++ re_sub_go (S (length g)) s
    | None => c :: re_sub_go 0 s
    end.
Proof. reflexivity. Qed.

Lemma re_sub_go_skip (k : nat) (c : N) (s : pystr) :
  re_sub_go (S k) (c :: s) = re_sub_go k s.
Proof. reflexivity. Qed.

(** A character other than the bar survives the rewriting of the bars. *)
Lemma re_sub_go_keeps (x : N) :
  x ≠ bar → ∀ s skip, x ∈ drop skip s → x ∈ re_sub_go skip s.
Proof.
  intros Hx. induction s as [|c s IH]; intros skip Hin.
  - by rewrite drop_nil in Hin.
  - destruct skip as [|k]; [|rewrite re_sub_go_skip; by apply IH].
    rewrite drop_0 in Hin. rewrite re_sub_go_head.
    destruct (match_abs (c :: s)) as [g|] eqn:Hm.
    + apply match_abs_spec in Hm as (_ & _ & r & Hs).
      injection Hs as -> ->. unfold replace_abs.
      apply elem_of_cons in Hin as [->|Hin]; [done|].
      apply elem_of_app in Hin as [Hg|Hr].
      * rewrite !elem_of_app. auto.
      * apply elem_of_cons in Hr as [->|Hr]; [done|].
        apply elem_of_app; right. apply IH.
        replace (S (length g)) with (length (g ++ [bar])) by (rewrite length_app; simpl; lia).
        replace (g ++ bar :: r) with ((g ++ [bar]) ++ r) by (by rewrite <- app_assoc).
        by rewrite drop_app_length.
    + apply elem_of_cons in Hin as [->|Hin]; [set_solver|].
      apply elem_of_cons; right. by apply IH.
Qed.

(** The minus sign U+2212 is never removed by the normalisation. *)
Lemma normalize_keeps_unicode_minus (s : pystr) :
  unicode_minus ∈ s → unicode_minus ∈ normalize s.
Proof.
  intros Hin. unfold normalize, re_sub_abs.
  apply re_sub_go_keeps; [done|]. rewrite drop_0.
  apply replace_keeps; [done| |].
  { unfold unicode_minus. vm_compute py. set_solver. }
  apply replace_keeps; [done| |done].
  unfold unicode_minus, minus_literal. set_solver.
Qed.

Lemma contains_spec (sep : N) (s : pystr) : contains sep s = true ↔ sep ∈ s.
Proof.
  unfold contains. induction s as [|c s IH]; simpl.
  - split; [done | by intros ?%elem_of_nil].
  - rewrite orb_true_iff, IH, elem_of_cons, N.eqb_eq. done.
Qed.

(** [split("=", 1)] cuts at the first separator, and only there. *)
Lemma split1_spec (sep : N) (s : pystr) :
  sep ∈ s →
  ∃ before after,
    split1 sep s = [before; after] ∧ s = before ++ sep :: after ∧ sep ∉ before.
Proof.
  induction s as [|c s IH]; intros Hin; [by apply elem_of_nil in Hin|].
  simpl. destruct (decide (c = sep)) as [->|Hne].
  - exists [], s. split; [done|]. split; [done|]. apply not_elem_of_nil.
  - apply elem_of_cons in Hin as [->|Hin]; [done|].
    destruct (IH Hin) as (before & after & -> & -> & Hno).
    exists (c :: before), after. split; [done|]. split; [done|].
    intros [->|?]%elem_of_cons; done.
Qed.

Lemma split1_absent (sep : N) (s : pystr) : sep ∉ s → split1 sep s = [s].
Proof.
  induction s as [|c s IH]; intros Hno; simpl; [done|].
  destruct (decide (c = sep)) as [->|Hne]; [by apply not_elem_of_cons in Hno as []|].
  rewrite IH; [done|]. by apply not_elem_of_cons in Hno as [].
Qed.

(** ** The order of strings and [sorted] *)

Lemma str_lt_irrefl (a : pystr) : str_lt a a = false.
Proof.
  induction a as [|x a IH]; simpl; [done|].
  rewrite IH, N.ltb_irrefl, andb_false_r. done.
Qed.

Lemma str_lt_asym (a b : pystr) : str_lt a b = true → str_lt b a = false.
Proof.
  revert b. induction a as [|x a IH]; intros [|y b]; simpl; try done.
  rewrite orb_true_iff, andb_true_iff, N.ltb_lt, N.eqb_eq.
  intros [Hlt|[-> Hlt]].
  - apply orb_false_iff. split; [apply N.ltb_ge; lia|].
    apply andb_false_iff; left. apply N.eqb_neq. lia.
  - rewrite N.ltb_irrefl, N.eqb_refl. simpl. by apply IH.
Qed.

(** If [z < x], any [y] is above [z] or below [x]. *)
Lemma str_lt_between (z x y : pystr) :
  str_lt z x = true → str_lt z y = true ∨ str_lt y x = true.
Proof.
  revert x y. induction z as [|a z IH]; intros [|b x] [|c y]; simpl; try done;
    try (by left); try (by right).
  rewrite !orb_true_iff, !andb_true_iff, !N.ltb_lt, !N.eqb_eq.
  intros [Hab|[-> Hzx]].
  - destruct (decide (a < c)); [by left; left|]. right; left. lia.
  - destruct (decide (b < c)); [by left; left|].
    destruct (decide (c < b)); [by right; left|].
    assert (c = b) as -> by lia.
    destruct (IH _ y Hzx); [left|right]; by right.
Qed.

Section SortedFacts.
Context {A : Type} (key : A → pystr).

Lemma insert_sorted_perm (x : A) (l : list A) : insert_sorted key x l ≡ₚ x :: l.
Proof.
  induction l as [|y l IH]; simpl; [done|].
  destruct (str_lt (key y) (key x)); [|done].
  rewrite IH. apply Permutation_swap.
Qed.

Lemma sorted_perm (l : list A) : sorted key l ≡ₚ l.
Proof.
  induction l as [|x l IH]; simpl; [done|].
  rewrite insert_sorted_perm. by rewrite IH.
Qed.

(** The first item of the sorted list: no key is below its key. *)
Lemma sorted_head_least (l : list A) (x : A) (rest : list A) :
  sorted key l = x :: rest →
  ∀ y, y ∈ l → str_lt (key y) (key x) = false.
Proof.
  revert x rest. induction l as [|a l IH]; intros x rest; simpl; [done|].
  destruct (sorted key l) as [|m tl] eqn:Hs; simpl.
  - intros [= <- <-] y Hy.
    assert (l = []) as ->.
    { apply Permutation_nil_r. by rewrite <- Hs, sorted_perm. }
    apply list_elem_of_singleton in Hy as ->. apply str_lt_irrefl.
  - specialize (IH m tl eq_refl).
    destruct (str_lt (key m) (key a)) eqn:Hma.
    + intros [= <- <-] y [->|Hy]%elem_of_cons; [by apply str_lt_asym|by apply IH].
    + intros [= <- <-] y [->|Hy]%elem_of_cons; [apply str_lt_irrefl|].
      destruct (str_lt (key y) (key a)) eqn:Hya; [|done].
      destruct (str_lt_between _ _ (key m) Hya) as [Hym|Hma']; [|congruence].
      rewrite IH in Hym; done.
Qed.

Lemma sorted_nil (l : list A) : sorted key l = [] → l = [].
Proof. intros Hs. apply Permutation_nil_r. by rewrite <- Hs, sorted_perm. Qed.

End SortedFacts.

(** ** The caret is gone after the normalisation *)

Lemma replace_single_removes (c : N) (new s : pystr) :
  c ∉ new → c ∉ replace [c] new s.
Proof.
  intros Hnew. unfold replace. induction s as [|a s IH]; [apply not_elem_of_nil|].
  cbn. destruct (decide (c = a)) as [->|Hne].
  - intros [?|?]%elem_of_app; done.
  - intros [?|?]%elem_of_cons; done.
Qed.



(** ** [strip] *)

Lemma lstrip_decompose (s : pystr) :
  ∃ l, s = l ++ lstrip s ∧ Forall (λ c, isspace c = true) l.
Proof.
  induction s as [|c s (l & Hs & Hl)]; [by exists []|].
  simpl. destruct (isspace c) eqn:Hc.
  - exists (c :: l). split; [by rewrite Hs at 1|]. by constructor.
  - by exists [].
Qed.

Lemma lstrip_head (s : pystr) (c : N) :
  head (lstrip s) = Some c → isspace c = false.
Proof.
  induction s as [|a s IH]; simpl; [done|].
  destruct (isspace a) eqn:Ha; [done|]. simpl. congruence.
Qed.

Lemma lstrip_last (s : pystr) (c : N) :
  last (lstrip s) = Some c → last s = Some c.
Proof.
  destruct (lstrip_decompose s) as (l & Hs & _). intros Hl.
  rewrite Hs, last_app, Hl. done.
Qed.

(** [strip] removes white space at both ends, and nothing else. *)
Lemma strip_decompose (s : pystr) :
  ∃ l r, s = l ++ strip s ++ r ∧
         Forall (λ c, isspace c = true) l ∧ Forall (λ c, isspace c = true) r.
Proof.
  unfold strip, rstrip.
  destruct (lstrip_decompose s) as (l & Hs & Hl).
  destruct (lstrip_decompose (reverse (lstrip s))) as (r & Hr & Hrs).
  exists l, (reverse r). split; [|split; [done|by apply Forall_reverse]].
  rewrite Hs at 1. f_equal.
  rewrite <- (reverse_involutive (lstrip s)), Hr at 1. by rewrite reverse_app.
Qed.

Lemma strip_last (s : pystr) (c : N) :
  last (strip s) = Some c → isspace c = false.
Proof.
  unfold strip, rstrip. rewrite last_reverse. apply lstrip_head.
Qed.

Lemma strip_head (s : pystr) (c : N) :
  head (strip s) = Some c → isspace c = false.
Proof.
  unfold strip, rstrip. rewrite head_reverse. intros Hl.
  apply lstrip_last in Hl. rewrite last_reverse in Hl. by apply lstrip_head in Hl.
Qed.

Lemma strip_nil : strip [] = [].
Proof. reflexivity. Qed.

(** * Properties of solve_equation *)

Section CoreFacts.
Context `{Engine}.

Lemma reraise_Ok {A} (prefix : pystr) (body : result A) (a : A) :
  reraise_ValueError prefix body = Ok a ↔ body = Ok a.
Proof. destruct body; simpl; split; congruence. Qed.

Lemma reraise_class {A} (prefix : pystr) (body : result A) (e : exn) :
  reraise_ValueError prefix body = Raise e →
  exn_class e = ValueError ∧ ∃ m, exn_str e = prefix ++ m.
Proof. destruct body as [a|e']; cbn; [done|]. intros [= <-]. eauto. Qed.

(** ** The parser *)

Lemma parse_equation_with_equals (text : pystr) :
  equals_sign ∈ text →
  ∃ before after,
    text = before ++ equals_sign :: after ∧ (equals_sign ∉ before) ∧
    parse_equation text =
      ('(left_expr, right_expr) ←
         reraise_ValueError (py "Could not parse equation: ")
           (left_expr ← parse_expr (strip before);
            right_expr ← parse_expr (strip after);
            mret (left_expr, right_expr));
       Eq left_expr right_expr).
Proof.
  intros Hin. destruct (split1_spec _ _ Hin) as (before & after & Hsp & Htext & Hno).
  exists before, after. split; [done|]. split; [done|].
  unfold parse_equation. apply contains_spec in Hin. rewrite Hin, Hsp. done.
Qed.

Lemma parse_equation_without_equals (text : pystr) :
  equals_sign ∉ text →
  parse_equation text =
    reraise_ValueError (py "Could not parse expression: ")
      (expr ← parse_expr (strip text); Eq expr zero).
Proof.
  intros Hno. unfold parse_equation.
  destruct (contains equals_sign text) eqn:Hc; [|done].
  by apply contains_spec in Hc.
Qed.

(** A text is cut at its first [c] in one way only. *)
Lemma first_cut_unique {A} (c : A) (before after before' after' : list A) :
  before ++ c :: after = before' ++ c :: after' →
  c ∉ before → c ∉ before' → before = before' ∧ after = after'.
Proof.
  revert before'. induction before as [|x before IH]; intros [|x' before'] Heq Hno Hno'.
  - by injection Heq as <-.
  - injection Heq as <- _. exfalso. apply Hno'. apply list_elem_of_here.
  - injection Heq as -> _. exfalso. apply Hno. apply list_elem_of_here.
  - injection Heq as <- Heq.
    destruct (IH before' Heq) as [-> ->]; [| |done].
    + intros Hc. apply Hno. by apply list_elem_of_further.
    + intros Hc. apply Hno'. by apply list_elem_of_further.
Qed.

(** The equation of line 49 is built outside the [try]: what [Eq] raises
    there is raised by the parser as it is. *)
Lemma parse_equation_Eq_error (text before after : pystr) (l r : Expr) (e : exn) :
  text = before ++ equals_sign :: after → equals_sign ∉ before →
  parse_expr (strip before) = Ok l → parse_expr (strip after) = Ok r →
  Eq l r = Raise e →
  parse_equation text = Raise e.
Proof.
  intros -> Hno Hl Hr He. unfold parse_equation.
  assert (equals_sign ∈ before ++ equals_sign :: after) as Hin.
  { apply elem_of_app. right. apply list_elem_of_here. }
  destruct (split1_spec _ _ Hin) as (before' & after' & Hsp & Htext & Hno').
  destruct (first_cut_unique _ _ _ _ _ Htext Hno Hno') as [<- <-].
  apply contains_spec in Hin. rewrite Hin, Hsp, Hl, Hr. cbn. exact He.
Qed.

(** The errors of the parser: those of the two [try] blocks, and what
    [Eq] raises on line 49 for two sides that were parsed. *)
Lemma parse_equation_error (text : pystr) (e : exn) :
  parse_equation text = Raise e →
  (exn_class e = ValueError ∧
   ∃ m, exn_str e = py "Could not parse equation: " ++ m
        ∨ exn_str e = py "Could not parse expression: " ++ m)
  ∨ (∃ before after l r,
       text = before ++ equals_sign :: after ∧ (equals_sign ∉ before) ∧
       parse_expr (strip before) = Ok l ∧ parse_expr (strip after) = Ok r ∧
       Eq l r = Raise e).
Proof.
  destruct (decide (equals_sign ∈ text)) as [Hin|Hno].
  - destruct (parse_equation_with_equals text Hin) as (before & after & Ht & Hno & ->).
    destruct (parse_expr (strip before)) as [l|e1] eqn:Hl; cbn.
    + destruct (parse_expr (strip after)) as [r|e2] eqn:Hr; cbn.
      * intros He. right. exists before, after, l, r. done.
      * intros [= <-]. left. eauto.
    + intros [= <-]. left. eauto.
  - rewrite parse_equation_without_equals by done.
    intros Hr. apply reraise_class in Hr as [Hc [m Hm]]. left. eauto.
Qed.

(** ** The variable *)

Lemma select_var_nonempty (equation : Expr) :
  free_symbols equation ≠ ∅ →
  ∃ var, select_var equation = Ok var ∧ var ∈ free_symbols equation.
Proof.
  intros Hne. unfold select_var.
  destruct (decide (elements (free_symbols equation) = [])) as [He|He].
  { by apply elements_empty_inv, leibniz_equiv in He. }
  destruct (decide (1 < size (free_symbols equation))%nat).
  - destruct (sorted sym_str (elements (free_symbols equation))) as [|v tl] eqn:Hs.
    { by apply sorted_nil in Hs. }
    exists v. split; [done|]. apply elem_of_elements.
    rewrite <- (sorted_perm sym_str), Hs. apply list_elem_of_here.
  - destruct (elements (free_symbols equation)) as [|v tl] eqn:Hel; [done|].
    exists v. split; [done|]. apply elem_of_elements. rewrite Hel.
    apply list_elem_of_here.
Qed.

Lemma select_var_error (equation : Expr) (e : exn) :
  select_var equation = Raise e →
  e = Exn ValueError no_variable_message.
Proof.
  destruct (decide (free_symbols equation = ∅)) as [Hem|Hne].
  - unfold select_var. rewrite Hem, elements_empty.
    destruct (decide _) as [_|?]; [|done]. congruence.
  - destruct (select_var_nonempty equation Hne) as (v & -> & _). done.
Qed.

Lemma solve_equation_steps (s : pystr) (equation : Expr) (var : Symbol) :
  parse_equation (normalize s) = Ok equation →
  select_var equation = Ok var →
  solve_equation s =
    reraise_ValueError (py "Could not solve equation: ")
      (solutions ← solve_dispatch equation var; format_result var solutions).
Proof. intros Hp Hv. unfold solve_equation. rewrite Hp. cbn. rewrite Hv. done. Qed.

(** ** The dispatcher *)

Lemma solve_dispatch_single (equation : Expr) (var : Symbol) (abs_expr : Expr) :
  atoms_Abs equation = [abs_expr] →
  solve_dispatch equation var =
    if is_number (other_side equation abs_expr) then
      eq1 ← Eq (arg0 abs_expr) (other_side equation abs_expr);
      eq2 ← Eq (arg0 abs_expr) (neg (other_side equation abs_expr));
      s1 ← solve eq1 var false;
      s2 ← solve eq2 var false;
      mret (s1 ++ s2)
    else solve equation var true.
Proof. intros Ha. unfold solve_dispatch. rewrite Ha. reflexivity. Qed.

(** The side that is taken for the constant: the right one when the term
    is on the left, else the left one. *)
Lemma other_side_left (equation abs_expr : Expr) :
  abs_expr ∈ atoms_Abs (lhs equation) → other_side equation abs_expr = rhs equation.
Proof. intros Hin. unfold other_side. by destruct (decide _). Qed.

Lemma other_side_right (equation abs_expr : Expr) :
  abs_expr ∉ atoms_Abs (lhs equation) → other_side equation abs_expr = lhs equation.
Proof. intros Hin. unfold other_side. by destruct (decide _). Qed.

(** The two branches of the split, for the constant [c]. *)
Lemma solve_dispatch_split (equation : Expr) (var : Symbol) (abs_expr c : Expr) :
  atoms_Abs equation = [abs_expr] →
  ((abs_expr ∈ atoms_Abs (lhs equation)) ∧ c = rhs equation
   ∨ (abs_expr ∉ atoms_Abs (lhs equation)) ∧ c = lhs equation) →
  is_number c = true →
  solve_dispatch equation var =
    (eq1 ← Eq (arg0 abs_expr) c;
     eq2 ← Eq (arg0 abs_expr) (neg c);
     s1 ← solve eq1 var false;
     s2 ← solve eq2 var false;
     mret (s1 ++ s2)).
Proof.
  intros Ha Hside Hn. rewrite (solve_dispatch_single _ _ _ Ha).
  assert (other_side equation abs_expr = c) as ->; [|by rewrite Hn].
  destruct Hside as [[Hin ->]|[Hin ->]];
    [by apply other_side_left|by apply other_side_right].
Qed.

Lemma solve_dispatch_none (equation : Expr) (var : Symbol) :
  atoms_Abs equation = [] →
  solve_dispatch equation var = solve equation var false.
Proof. intros Ha. unfold solve_dispatch. rewrite Ha. reflexivity. Qed.

Lemma solve_dispatch_several (equation : Expr) (var : Symbol) :
  (1 < length (atoms_Abs equation))%nat →
  solve_dispatch equation var = solve equation var true.
Proof.
  intros Hlen. unfold solve_dispatch.
  destruct (atoms_Abs equation) as [|a [|b l]]; simpl in Hlen; try lia.
  reflexivity.
Qed.

(** ** The formatter *)







(** ** The errors of solve_equation *)

Lemma solve_equation_error (s : pystr) (e : exn) :
  solve_equation s = Raise e → own_error e ∨ Eq_error (normalize s) e.
Proof.
  unfold solve_equation.
  destruct (parse_equation (normalize s)) as [equation|e1] eqn:Hp; cbn.
  - destruct (select_var equation) as [var|e2] eqn:Hv; cbn.
    + intros Hr. apply reraise_class in Hr as [Hc [m Hm]]. left. split; eauto 6.
    + intros [= <-]. apply select_var_error in Hv as ->. left. split; [done|].
      exists []. auto.
  - intros [= <-]. apply parse_equation_error in Hp as [[Hc [m [Hm|Hm]]]|He].
    + left. split; eauto 6.
    + left. split; eauto 6.
    + by right.
Qed.

Lemma solve_equation_Eq_error (s : pystr) (e : exn) :
  Eq_error (normalize s) e → solve_equation s = Raise e.
Proof.
  intros (before & after & l & r & Ht & Hno & Hl & Hr & He).
  unfold solve_equation.
  by rewrite (parse_equation_Eq_error _ _ _ _ _ _ Ht Hno Hl Hr He).
Qed.

Lemma own_error_not_format_error (e : exn) :
  own_error e → exn_str e ≠ py "Invalid equation format".
Proof.
  intros [_ [m Hm]] He. rewrite He in Hm.
  destruct Hm as [Hm|[Hm|[Hm|Hm]]]; vm_compute in Hm; discriminate.
Qed.

End CoreFacts.

(** * The statements of the specification *)

Section Claims.
Context `{Engine}.

(** C1. When the equation has one absolute-value term and the side that
    does not hold it is a number [c] (the right side when the term is on
    the left, the left side otherwise), the dispatcher builds [inner = c]
    and [inner = -c], solves each on its own, and returns the solutions of
    the first followed by those of the second; that list is what
    solve_equation formats. *)
Theorem abs_constant_case_split
    (s : pystr) (equation : Expr) (var : Symbol) (abs_expr c eq1 eq2 : Expr)
    (s1 s2 : list (gmap Symbol Expr)) :
  parse_equation (normalize s) = Ok equation →
  select_var equation = Ok var →
  atoms_Abs equation = [abs_expr] →
  ((abs_expr ∈ atoms_Abs (lhs equation)) ∧ c = rhs equation
   ∨ (abs_expr ∉ atoms_Abs (lhs equation)) ∧ c = lhs equation) →
  is_number c = true →
  Eq (arg0 abs_expr) c = Ok eq1 →
  Eq (arg0 abs_expr) (neg c) = Ok eq2 →
  solve eq1 var false = Ok s1 →
  solve eq2 var false = Ok s2 →
  solve_dispatch equation var = Ok (s1 ++ s2) ∧
  solve_equation s =
    reraise_ValueError (py "Could not solve equation: ")
      (format_result var (s1 ++ s2)).
Proof.
  intros Hp Hv Ha Hside Hn He1 He2 H1 H2.
  assert (solve_dispatch equation var = Ok (s1 ++ s2)) as Hd.
  { rewrite (solve_dispatch_split _ _ _ c Ha Hside Hn), He1. cbn.
    rewrite He2. cbn. rewrite H1. cbn. rewrite H2. done. }
  split; [done|]. rewrite (solve_equation_steps s equation var Hp Hv), Hd. done.
Qed.

(** C4, as the code has it. When the dispatcher is reached with one
    absolute-value term and the side that does not hold it is a number
    [c], the only test made on [c] is [is_number]: whatever its sign, the
    two equations [inner = c] and [inner = -c] are built and solved and
    their solutions returned, and every equation of which [Eq] leaves no
    free symbol raises the error of the missing variable before the
    dispatcher is reached. *)
Theorem case_split_guard_is_number_only
    (s : pystr) (equation : Expr) (var : Symbol) (abs_expr c : Expr) :
  parse_equation (normalize s) = Ok equation →
  select_var equation = Ok var →
  atoms_Abs equation = [abs_expr] →
  ((abs_expr ∈ atoms_Abs (lhs equation)) ∧ c = rhs equation
   ∨ (abs_expr ∉ atoms_Abs (lhs equation)) ∧ c = lhs equation) →
  is_number c = true →
  let branches :=
    eq1 ← Eq (arg0 abs_expr) c;
    eq2 ← Eq (arg0 abs_expr) (neg c);
    s1 ← solve eq1 var false;
    s2 ← solve eq2 var false;
    mret (s1 ++ s2) in
  solve_dispatch equation var = branches ∧
  solve_equation s =
    reraise_ValueError (py "Could not solve equation: ")
      (solutions ← branches; format_result var solutions) ∧
  (∀ s' equation',
     parse_equation (normalize s') = Ok equation' →
     free_symbols equation' = ∅ →
     solve_equation s' = Raise (Exn ValueError no_variable_message)).
Proof.
  intros Hp Hv Ha Hside Hn branches.
  assert (solve_dispatch equation var = branches) as Hd.
  { by rewrite (solve_dispatch_split _ _ _ c Ha Hside Hn). }
  split; [done|]. split.
  - rewrite (solve_equation_steps s equation var Hp Hv), Hd. done.
  - intros s' equation' Hp' Hfree. unfold solve_equation. rewrite Hp'. cbn.
    unfold select_var. rewrite Hfree, elements_empty.
    by destruct (decide _).
Qed.


(** C6. With more than one free symbol, the variable is a symbol of the
    equation whose name no other name precedes in the order of strings,
    and it depends on the set of symbols alone, not on the sides they
    stand on. *)
Theorem select_var_lexicographic_first (equation : Expr) :
  (1 < size (free_symbols equation))%nat →
  ∃ var,
    select_var equation = Ok var ∧
    var ∈ free_symbols equation ∧
    (∀ other, other ∈ free_symbols equation →
       str_lt (sym_str other) (sym_str var) = false) ∧
    (∀ equation', free_symbols equation' = free_symbols equation →
       select_var equation' = Ok var).
Proof.
  intros Hsize.
  assert (free_symbols equation ≠ ∅) as Hne.
  { intros Hem. rewrite Hem, size_empty in Hsize. lia. }
  destruct (select_var_nonempty equation Hne) as (var & Hv & Hin).
  exists var. split; [done|]. split; [done|]. split.
  - intros other Ho. unfold select_var in Hv.
    destruct (decide (elements (free_symbols equation) = [])); [done|].
    destruct (decide (1 < size (free_symbols equation))%nat); [|done].
    destruct (sorted sym_str (elements (free_symbols equation))) as [|v tl] eqn:Hs;
      [done|].
    injection Hv as ->.
    apply (sorted_head_least sym_str _ _ _ Hs). by apply elem_of_elements.
  - intros equation' Heq. unfold select_var in *. by rewrite Heq.
Qed.

(** C7. When the dispatcher returns an empty list, solve_equation returns
    the text "No solution found for <var>."; when the dispatcher raises,
    solve_equation raises: the two outcomes differ. *)
Theorem empty_solutions_message (s : pystr) (equation : Expr) (var : Symbol) :
  parse_equation (normalize s) = Ok equation →
  select_var equation = Ok var →
  (solve_dispatch equation var = Ok [] →
     solve_equation s = Ok (py "No solution found for " ++ sym_str var ++ py ".")) ∧
  (∀ e, solve_dispatch equation var = Raise e →
     solve_equation s =
       Raise (Exn ValueError (py "Could not solve equation: " ++ exn_str e))).
Proof.
  intros Hp Hv. rewrite (solve_equation_steps s equation var Hp Hv).
  split; [intros ->|intros e ->]; done.
Qed.

(** C3, as the code has it. A text with "=" is cut at the first "=" and
    only there, and both sides are stripped; a side that is empty is given
    to the parser like any other text, and when the parser rejects it
    solve_equation raises the error "Could not parse equation: ...". The
    cut always has two parts, so that the error "Invalid equation format"
    of line 39 is never raised: an error with that text can only be one
    that [Eq] raises for the two parsed sides. *)
Theorem equation_sides_split_and_parsed (s : pystr) :
  equals_sign ∈ normalize s →
  ∃ before after,
    normalize s = before ++ equals_sign :: after ∧
    (equals_sign ∉ before) ∧
    parse_equation (normalize s) =
      ('(left_expr, right_expr) ←
         reraise_ValueError (py "Could not parse equation: ")
           (left_expr ← parse_expr (strip before);
            right_expr ← parse_expr (strip after);
            mret (left_expr, right_expr));
       Eq left_expr right_expr) ∧
    (∀ e, strip before = [] ∨ strip after = [] →
          parse_expr [] = Raise e →
          ∃ m, solve_equation s =
                 Raise (Exn ValueError (py "Could not parse equation: " ++ m))) ∧
    split1 equals_sign (normalize s) = [before; after] ∧
    (∀ e, solve_equation s = Raise e →
          exn_str e = py "Invalid equation format" →
          ∃ l r, parse_expr (strip before) = Ok l ∧
                 parse_expr (strip after) = Ok r ∧ Eq l r = Raise e).
Proof.
  intros Hin.
  destruct (parse_equation_with_equals _ Hin) as (before & after & Hs & Hno & Hp).
  exists before, after. split; [done|]. split; [done|]. split; [done|].
  split; [|split].
  - intros e Hempty He. unfold solve_equation. rewrite Hp.
    destruct Hempty as [Hb|Ha].
    + rewrite Hb, He. cbn. eauto.
    + rewrite Ha, He. destruct (parse_expr (strip before)); cbn; eauto.
  - destruct (split1_spec _ _ Hin) as (before' & after' & Hsp & Htext & Hno').
    rewrite Hs in Htext.
    by destruct (first_cut_unique _ _ _ _ _ Htext Hno Hno') as [<- <-].
  - intros e Hr Hm. apply solve_equation_error in Hr as [Hown|Heq].
    + by apply own_error_not_format_error in Hown.
    + destruct Heq as (before' & after' & l & r & Htext & Hno' & Hl & Hr & He).
      rewrite Hs in Htext.
      destruct (first_cut_unique _ _ _ _ _ Htext Hno Hno') as [<- <-]. eauto.
Qed.

(** C10. An exception that [Eq] raises on line 49 for the two parsed sides
    of the equation is outside every [try]: solve_equation raises it as it
    is, with its own class and text, and when it is no ValueError the
    handler answers 500. *)
Theorem Eq_error_leaves_solve_equation
    (s before after : pystr) (l r : Expr) (e : exn) :
  normalize s = before ++ equals_sign :: after →
  equals_sign ∉ before →
  parse_expr (strip before) = Ok l →
  parse_expr (strip after) = Ok r →
  Eq l r = Raise e →
  solve_equation s = Raise e ∧
  (∀ name arg,
     exn_class e = OtherException name →
     strip (default [] arg) = s → s ≠ [] →
     solve_handler solve_equation arg =
       Response [(py "error", py "Error solving equation: " ++ exn_str e)] 500).
Proof.
  intros Hs Hno Hl Hr He.
  assert (solve_equation s = Raise e) as Hraise.
  { apply solve_equation_Eq_error. exists before, after, l, r. done. }
  split; [done|]. intros name arg Hc Harg Hne.
  unfold solve_handler. rewrite Harg. destruct (decide (s = [])); [done|].
  rewrite Hraise. destruct e as [c m]. cbn in Hc. by subst c.
Qed.

End Claims.

(** C9. The answers of the handler: without a parameter, or with one that
    is empty once stripped, 400 and the fixed message, whatever the core;
    400 and the message for a ValueError of the core; 500 and the prefixed
    message for another exception; 200 and the result otherwise. *)
Theorem solve_handler_responses (core : pystr → result pystr) (arg : option pystr) :
  let equation := strip (default [] arg) in
  let missing :=
    Response [(py "error", py "Missing 'equation' query parameter")] 400 in
  (∀ core', solve_handler core' None = missing) ∧
  (equation = [] → ∀ core', solve_handler core' arg = missing) ∧
  (equation ≠ [] → ∀ message,
     core equation = Raise (Exn ValueError message) →
     solve_handler core arg = Response [(py "error", message)] 400) ∧
  (equation ≠ [] → ∀ name message,
     core equation = Raise (Exn (OtherException name) message) →
     solve_handler core arg =
       Response [(py "error", py "Error solving equation: " ++ message)] 500) ∧
  (equation ≠ [] → ∀ text,
     core equation = Ok text →
     solve_handler core arg = Response [(py "result", text)] 200).
Proof.
  intros equation missing. unfold solve_handler. fold equation.
  split; [done|]. split.
  { intros He core'. by destruct (decide (equation = [])). }
  repeat split; intros Hne **; destruct (decide (equation = [])); try done;
    by match goal with Hc : core _ = _ |- _ => rewrite Hc end.
Qed.

(** C2. The text "x − 3 = 5", written with the minus sign U+2212, is left
    as it is by the normalisation: the minus sign is still in it. *)
Theorem unicode_minus_not_replaced :
  let s := py "x " ++ [unicode_minus] ++ py " 3 = 5" in
  normalize s = s ∧ unicode_minus ∈ normalize s.
Proof.
  split; [reflexivity|]. apply normalize_keeps_unicode_minus.
  apply elem_of_app; right. apply list_elem_of_here.
Qed.

(** C8. The three characters U+00E2 U+02C6 U+2019 hold no caret, no minus
    sign U+2212 and no bar, and the normalisation rewrites them to "-". *)
Theorem normalize_rewrites_clean_string :
  let s := [0xe2; 0x2c6; 0x2019] in
  (caret ∉ s) ∧ (unicode_minus ∉ s) ∧ (bar ∉ s) ∧
  normalize s = py "-" ∧ normalize s ≠ s.
Proof.
  cbv zeta. split; [|split; [|split; [|split]]].
  - intros Hin. apply contains_spec in Hin. discriminate.
  - intros Hin. apply contains_spec in Hin. discriminate.
  - intros Hin. apply contains_spec in Hin. discriminate.
  - reflexivity.
  - vm_compute. discriminate.
Qed.

(** * The reference engine at work *)

Example ref_two_x : solve_equation (H := Ref.engine) (py "2x = 8") =
  Ok (py "x = " ++ [dquote] ++ py "4.0" ++ [dquote]).
Proof. vm_compute. reflexivity. Qed.

Example ref_half : solve_equation (H := Ref.engine) (py "4x = 2(x + 1) - 3") =
  Ok (py "x = " ++ [dquote] ++ py "-0.5" ++ [dquote]).
Proof. vm_compute. reflexivity. Qed.

Example ref_no_variable : solve_equation (H := Ref.engine) (py "5") =
  Raise (Exn ValueError no_variable_message).
Proof. vm_compute. reflexivity. Qed.

(** [Eq] evaluates what it can: a side that cannot be negative against a
    negative number, a number against another, a side against itself. *)
Example ref_Eq_evaluates :
  Ref.Eq (Ref.Abs (Ref.Sym (py "x"))) (Ref.Num (-5)) = Ok (Ref.Bool false) ∧
  Ref.Eq (Ref.Num 0) (Ref.Num 1) = Ok (Ref.Bool false) ∧
  Ref.Eq (Ref.Sym (py "x")) (Ref.Sym (py "x")) = Ok (Ref.Bool true) ∧
  Ref.Eq (Ref.Abs (Ref.Sym (py "x"))) (Ref.Num 5) =
    Ok (Ref.Equ (Ref.Abs (Ref.Sym (py "x"))) (Ref.Num 5)).
Proof. repeat split; vm_compute; reflexivity. Qed.

Example ref_tie_to_even : Ref.fixed1 (1 # 4) = py "0.2" ∧ Ref.fixed1 (3 # 4) = py "0.8".
Proof. split; reflexivity. Qed.

Lemma ref_decimal_digit (d : N) :
  d < 10 → ∃ c, Ref.decimal d = [c] ∧ Ref.is_digit c = true.
Proof.
  intros Hd.
  assert (d = 0 ∨ d = 1 ∨ d = 2 ∨ d = 3 ∨ d = 4 ∨ d = 5 ∨ d = 6 ∨ d = 7
          ∨ d = 8 ∨ d = 9) as Hcases by lia.
  repeat destruct Hcases as [->|Hcases]; try subst d; eexists; split; reflexivity.
Qed.

(** The text that the reference engine makes for the spec ".1f" ends with
    a point and one digit. *)
Lemma ref_fixed1_shape (q : Q) :
  ∃ whole digit, Ref.fixed1 q = whole ++ py "." ++ [digit] ∧ Ref.is_digit digit = true.
Proof.
  unfold Ref.fixed1. cbv zeta.
  set (r := if _ || _ then _ else _).
  destruct (ref_decimal_digit (r mod 10)) as (c & -> & Hc).
  { apply N.mod_lt. lia. }
  eexists _, c. split; [|done]. by rewrite app_assoc.
Qed.

(** The one error of [Eq] on the reference engine. *)
Lemma ref_Eq_error (l r : Ref.expr) (e : exn) :
  Ref.Eq l r = Raise e →
  e = Exn (OtherException "IndexError") (py "tuple index out of range").
Proof.
  unfold Ref.Eq. destruct (_ || _); [congruence|].
  destruct (decide _); [done|].
  destruct (Ref.sign_of _); try done; by destruct (Ref.constant_difference _ _).
Qed.

(** * The statements on the reference engine *)

Lemma abs_constant_case_split_witness :
  let inner := Ref.Add (Ref.Sym (py "x")) (Ref.Num (-3)) in
  let answer :=
    py "x = " ++ [dquote] ++ py "8.0" ++ [dquote] ++ py ", x = "
    ++ [dquote] ++ py "-2.0" ++ [dquote] in
  solve_dispatch (H := Ref.engine) (Ref.Equ (Ref.Abs inner) (Ref.Num 5)) (py "x") =
    Ok [ {[ py "x" := Ref.Num 8 ]}; {[ py "x" := Ref.Num (-2) ]} ] ∧
  solve_equation (H := Ref.engine) (py "|x - 3| = 5") = Ok answer ∧
  solve_dispatch (H := Ref.engine) (Ref.Equ (Ref.Num 5) (Ref.Abs inner)) (py "x") =
    Ok [ {[ py "x" := Ref.Num 8 ]}; {[ py "x" := Ref.Num (-2) ]} ] ∧
  solve_equation (H := Ref.engine) (py "5 = |x - 3|") = Ok answer.
Proof.
  intros inner answer.
  pose proof (abs_constant_case_split (H := Ref.engine)
    (py "|x - 3| = 5") (Ref.Equ (Ref.Abs inner) (Ref.Num 5)) (py "x")
    (Ref.Abs inner) (Ref.Num 5)
    (Ref.Equ inner (Ref.Num 5)) (Ref.Equ inner (Ref.Num (-5)))
    [ {[ py "x" := Ref.Num 8 ]} ] [ {[ py "x" := Ref.Num (-2) ]} ]
    ltac:(vm_compute; reflexivity) ltac:(vm_compute; reflexivity)
    ltac:(vm_compute; reflexivity)
    ltac:(left; split; [apply list_elem_of_here|reflexivity])
    ltac:(vm_compute; reflexivity) ltac:(vm_compute; reflexivity)
    ltac:(vm_compute; reflexivity) ltac:(vm_compute; reflexivity)
    ltac:(vm_compute; reflexivity)) as [Hd He].
  pose proof (abs_constant_case_split (H := Ref.engine)
    (py "5 = |x - 3|") (Ref.Equ (Ref.Num 5) (Ref.Abs inner)) (py "x")
    (Ref.Abs inner) (Ref.Num 5)
    (Ref.Equ inner (Ref.Num 5)) (Ref.Equ inner (Ref.Num (-5)))
    [ {[ py "x" := Ref.Num 8 ]} ] [ {[ py "x" := Ref.Num (-2) ]} ]
    ltac:(vm_compute; reflexivity) ltac:(vm_compute; reflexivity)
    ltac:(vm_compute; reflexivity)
    ltac:(right; split; [apply not_elem_of_nil|reflexivity])
    ltac:(vm_compute; reflexivity) ltac:(vm_compute; reflexivity)
    ltac:(vm_compute; reflexivity) ltac:(vm_compute; reflexivity)
    ltac:(vm_compute; reflexivity)) as [Hd' He'].
  split; [exact Hd|]. split; [rewrite He; vm_compute; reflexivity|].
  split; [exact Hd'|]. rewrite He'. vm_compute. reflexivity.
Defined.

Lemma case_split_guard_is_number_only_witness :
  let x := Ref.Sym (py "x") in
  let answer :=
    py "x = " ++ [dquote] ++ py "-2.0" ++ [dquote] ++ py ", x = "
    ++ [dquote] ++ py "2.0" ++ [dquote] in
  Ref.sign_of (Ref.Num (-2)) = Ref.SNeg ∧
  solve_dispatch (H := Ref.engine)
      (Ref.Equ (Ref.Add (Ref.Abs x) (Ref.Neg x)) (Ref.Num (-2))) (py "x") =
    Ok [ {[ py "x" := Ref.Num (-2) ]}; {[ py "x" := Ref.Num 2 ]} ] ∧
  solve_equation (H := Ref.engine) (py "|x| - x = -2") = Ok answer ∧
  solve_equation (H := Ref.engine) (py "-2 = |x| - x") = Ok answer.
Proof.
  intros x answer.
  pose proof (case_split_guard_is_number_only (H := Ref.engine)
    (py "|x| - x = -2")
    (Ref.Equ (Ref.Add (Ref.Abs x) (Ref.Neg x)) (Ref.Num (-2))) (py "x")
    (Ref.Abs x) (Ref.Num (-2))
    ltac:(vm_compute; reflexivity) ltac:(vm_compute; reflexivity)
    ltac:(vm_compute; reflexivity)
    ltac:(left; split; [apply list_elem_of_here|reflexivity])
    ltac:(vm_compute; reflexivity)) as (Hd & He & _).
  pose proof (case_split_guard_is_number_only (H := Ref.engine)
    (py "-2 = |x| - x")
    (Ref.Equ (Ref.Num (-2)) (Ref.Add (Ref.Abs x) (Ref.Neg x))) (py "x")
    (Ref.Abs x) (Ref.Num (-2))
    ltac:(vm_compute; reflexivity) ltac:(vm_compute; reflexivity)
    ltac:(vm_compute; reflexivity)
    ltac:(right; split; [apply not_elem_of_nil|reflexivity])
    ltac:(vm_compute; reflexivity)) as (_ & He' & _).
  split; [reflexivity|]. split; [|split].
  - rewrite Hd. vm_compute. reflexivity.
  - rewrite He. vm_compute. reflexivity.
  - rewrite He'. vm_compute. reflexivity.
Defined.

(** C4 as the specification words it fails on its own example: [Eq]
    finds that "|x| = -5" is false, the truth value has no free symbol, and
    solve_equation raises the error of the missing variable; the
    dispatcher is not reached and no branch is solved. *)
Lemma negative_constant_is_no_variable_error :
  let x := Ref.Sym (py "x") in
  normalize (py "|x| = -5") = py "Abs(x) = -5" ∧
  Ref.parse_expr (py "Abs(x)") = Ok (Ref.Abs x) ∧
  Ref.parse_expr (py "-5") = Ok (Ref.Num (-5)) ∧
  Ref.Eq (Ref.Abs x) (Ref.Num (-5)) = Ok (Ref.Bool false) ∧
  parse_equation (H := Ref.engine) (normalize (py "|x| = -5")) = Ok (Ref.Bool false) ∧
  solve_equation (H := Ref.engine) (py "|x| = -5") =
    Raise (Exn ValueError no_variable_message).
Proof. repeat split; vm_compute; reflexivity. Qed.



Lemma select_var_lexicographic_first_witness :
  select_var (H := Ref.engine)
    (Ref.Equ (Ref.Add (Ref.Sym (py "y")) (Ref.Sym (py "x"))) (Ref.Num 10)) = Ok (py "x") ∧
  select_var (H := Ref.engine)
    (Ref.Equ (Ref.Num 10) (Ref.Add (Ref.Sym (py "x")) (Ref.Sym (py "y")))) = Ok (py "x").
Proof.
  destruct (select_var_lexicographic_first (H := Ref.engine)
    (Ref.Equ (Ref.Add (Ref.Sym (py "y")) (Ref.Sym (py "x"))) (Ref.Num 10))
    ltac:(vm_compute; lia)) as (var & Hv & _ & _ & Hsets).
  assert (var = py "x") as -> by (vm_compute in Hv; injection Hv as <-; reflexivity).
  split; [exact Hv|]. apply Hsets. vm_compute. reflexivity.
Defined.

Lemma empty_solutions_message_witness :
  solve_equation (H := Ref.engine) (py "1/x = 0") = Ok (py "No solution found for x.").
Proof.
  destruct (empty_solutions_message (H := Ref.engine)
    (py "1/x = 0")
    (Ref.Equ (Ref.Div (Ref.Num 1) (Ref.Sym (py "x"))) (Ref.Num 0)) (py "x")
    ltac:(vm_compute; reflexivity) ltac:(vm_compute; reflexivity)) as [Hempty _].
  rewrite Hempty; [|vm_compute; reflexivity]. vm_compute. reflexivity.
Defined.

Lemma equation_sides_split_and_parsed_witness :
  (∃ m, solve_equation (H := Ref.engine) (py "= 5") =
          Raise (Exn ValueError (py "Could not parse equation: " ++ m))) ∧
  (∀ e, solve_equation (H := Ref.engine) (py "= 5") = Raise e →
        exn_str e ≠ py "Invalid equation format").
Proof.
  destruct (equation_sides_split_and_parsed (H := Ref.engine) (py "= 5")
    ltac:(apply contains_spec; vm_compute; reflexivity))
    as (before & after & Hs & Hno & _ & Hempty & _ & Hformat).
  split.
  - apply (Hempty (Exn (OtherException "SyntaxError") (py "invalid syntax")));
      [|vm_compute; reflexivity].
    left. destruct before as [|c before]; [reflexivity|].
    exfalso. apply Hno. vm_compute in Hs. injection Hs as <- _.
    apply list_elem_of_here.
  - intros e Hr Hm. destruct (Hformat e Hr Hm) as (l & r & _ & _ & He).
    apply ref_Eq_error in He. subst e. vm_compute in Hm. discriminate.
Defined.

(** C3 as the specification words it fails on "= 5": the left side is
    empty, and the error is the one of the parser, not "Invalid equation
    format". *)
Lemma empty_side_is_parse_error :
  split1 equals_sign (normalize (py "= 5")) = [ []; py " 5" ] ∧
  strip [] = [] ∧
  solve_equation (H := Ref.engine) (py "= 5") =
    Raise (Exn ValueError (py "Could not parse equation: invalid syntax")) ∧
  solve_equation (H := Ref.engine) (py "= 5") ≠
    Raise (Exn ValueError (py "Invalid equation format")).
Proof.
  split; [reflexivity|]. split; [reflexivity|]. split; [vm_compute; reflexivity|].
  vm_compute. discriminate.
Qed.

Lemma Eq_error_leaves_solve_equation_witness :
  let s := py "lambda y: y = x" in
  (∃ m, solve_equation (H := Ref.engine) s =
          Raise (Exn (OtherException "IndexError") m)) ∧
  (∃ m, solve_handler (solve_equation (H := Ref.engine)) (Some s) =
          Response [(py "error", py "Error solving equation: " ++ m)] 500) ∧
  status (solve_handler (solve_equation (H := Ref.engine)) (Some s)) = 500.
Proof.
  intros s.
  pose proof (Eq_error_leaves_solve_equation (H := Ref.engine)
    s (py "lambda y: y ") (py " x")
    (Ref.Lambda (py "y") (Ref.Sym (py "y"))) (Ref.Sym (py "x"))
    (Exn (OtherException "IndexError") (py "tuple index out of range"))
    ltac:(vm_compute; reflexivity)
    ltac:(intros Hin; apply contains_spec in Hin; vm_compute in Hin; discriminate)
    ltac:(vm_compute; reflexivity) ltac:(vm_compute; reflexivity)
    ltac:(vm_compute; reflexivity)) as [Hraise Hhandler].
  pose proof (Hhandler "IndexError"%string (Some s) eq_refl
    ltac:(vm_compute; reflexivity) ltac:(discriminate)) as H500.
  split; [eauto|]. split; [eauto|]. by rewrite H500.
Defined.

Lemma solve_handler_responses_witness :
  solve_handler (solve_equation (H := Ref.engine)) (Some (py "   ")) =
    Response [(py "error", py "Missing 'equation' query parameter")] 400 ∧
  solve_handler (solve_equation (H := Ref.engine)) (Some (py "5")) =
    Response [(py "error", no_variable_message)] 400 ∧
  solve_handler (λ text, expr ← Ref.parse_expr text; Ok (Ref.str expr)) (Some (py "x +")) =
    Response [(py "error", py "Error solving equation: invalid syntax")] 500 ∧
  solve_handler (solve_equation (H := Ref.engine)) (Some (py " x + 5 = 10 ")) =
    Response [(py "result", py "x = " ++ [dquote] ++ py "5.0" ++ [dquote])] 200.
Proof.
  split; [|split; [|split]].
  - pose proof (solve_handler_responses
      (solve_equation (H := Ref.engine)) (Some (py "   "))) as Hthm.
    cbv zeta in Hthm. destruct Hthm as (_ & Hmissing & _).
    apply Hmissing. vm_compute. reflexivity.
  - pose proof (solve_handler_responses
      (solve_equation (H := Ref.engine)) (Some (py "5"))) as Hthm.
    cbv zeta in Hthm. destruct Hthm as (_ & _ & Hvalue & _).
    apply Hvalue; vm_compute; [discriminate|reflexivity].
  - pose proof (solve_handler_responses
      (λ text, expr ← Ref.parse_expr text; Ok (Ref.str expr)) (Some (py "x +"))) as Hthm.
    cbv zeta in Hthm. destruct Hthm as (_ & _ & _ & Hother & _).
    apply (Hother ltac:(vm_compute; discriminate) "SyntaxError"%string).
    vm_compute. reflexivity.
  - pose proof (solve_handler_responses
      (solve_equation (H := Ref.engine)) (Some (py " x + 5 = 10 "))) as Hthm.
    cbv zeta in Hthm. destruct Hthm as (_ & _ & _ & _ & Hok).
    apply Hok; vm_compute; [discriminate|reflexivity].
Defined.

(** * Further properties of the normalisation *)

Lemma replace_go_head (old new : pystr) (c : N) (s : pystr) :
  replace_go old new 0 (c :: s) =
    if startswith old (c :: s)
    then new ++ replace_go old new (length old - 1) s
    else c :: replace_go old new 0 s.
Proof. reflexivity. Qed.

Lemma replace_go_skip_app (old new p r : pystr) :
  replace_go old new (length p) (p ++ r) = replace_go old new 0 r.
Proof. induction p as [|c p IH]; [by destruct r|]. simpl. apply IH. Qed.

Lemma replace_match (old new r : pystr) :
  old ≠ [] → replace old new (old ++ r) = new ++ replace old new r.
Proof.
  intros Hold. unfold replace. destruct old as [|o old]; [done|].
  change ((o :: old) ++ r) with (o :: (old ++ r)). rewrite replace_go_head.
  assert (startswith (o :: old) (o :: old ++ r) = true) as ->.
  { apply startswith_spec. by exists r. }
  f_equal. replace (length (o :: old) - 1)%nat with (length old) by (simpl; lia).
  apply replace_go_skip_app.
Qed.

Lemma replace_no_match (old new : pystr) (c : N) (s : pystr) :
  startswith old (c :: s) = false →
  replace old new (c :: s) = c :: replace old new s.
Proof. intros Hs. unfold replace. by rewrite replace_go_head, Hs. Qed.

(** Replacing one character is done character by character. *)
Lemma replace_single_flat_map (c : N) (new s : pystr) :
  replace [c] new s = flat_map (λ x, if decide (x = c) then new else [x]) s.
Proof.
  induction s as [|a s IH]; [done|]. simpl flat_map.
  destruct (decide (a = c)) as [->|Hne].
  - rewrite <- IH. apply (replace_match [c]). done.
  - rewrite <- IH. apply replace_no_match. simpl.
    by destruct (decide (c = a)) as [->|].
Qed.

Section KeptCharacters.
Context (P : N → Prop) `{∀ c, Decision (P c)}.

Lemma filter_none (l : pystr) : (∀ c, c ∈ l → ¬ P c) → filter P l = [].
Proof.
  induction l as [|a l IH]; intros Hl; [done|].
  rewrite filter_cons_False by (apply Hl, list_elem_of_here).
  apply IH. intros c Hc. apply Hl. by apply elem_of_cons; right.
Qed.

(** When no character of [old] and of [new] is one of those that [P]
    selects, these are the same before and after the replacement. *)
Lemma replace_go_filter (old new : pystr) :
  old ≠ [] → (∀ c, c ∈ old → ¬ P c) → (∀ c, c ∈ new → ¬ P c) →
  ∀ s skip, filter P (replace_go old new skip s) = filter P (drop skip s).
Proof.
  intros Hold Ho Hn. induction s as [|c s IH]; intros skip.
  - by rewrite drop_nil.
  - destruct skip as [|k]; [|apply IH].
    rewrite drop_0, replace_go_head.
    destruct (startswith old (c :: s)) eqn:Hsw.
    + apply startswith_spec in Hsw as [r Hr].
      rewrite filter_app, IH, (filter_none new) by done.
      destruct old as [|o old']; [done|]. simpl in Hr. injection Hr as -> ->.
      replace (length (o :: old') - 1)%nat with (length old') by (simpl; lia).
      rewrite drop_app_length.
      rewrite filter_cons_False by (apply Ho, list_elem_of_here).
      rewrite filter_app, (filter_none old'); [done|].
      intros x Hx. apply Ho. by apply elem_of_cons; right.
    + rewrite !filter_cons, IH, drop_0. done.
Qed.

Lemma re_sub_go_filter :
  ¬ P bar → (∀ c, c ∈ py "Abs()" → ¬ P c) →
  ∀ s skip, filter P (re_sub_go skip s) = filter P (drop skip s).
Proof.
  intros Hbar Habs. induction s as [|c s IH]; intros skip.
  - by rewrite drop_nil.
  - destruct skip as [|k]; [|rewrite re_sub_go_skip; apply IH].
    rewrite drop_0, re_sub_go_head.
    destruct (match_abs (c :: s)) as [g|] eqn:Hm.
    + apply match_abs_spec in Hm as (_ & _ & r & Hs). injection Hs as -> ->.
      unfold replace_abs. rewrite !filter_app, IH.
      replace (S (length g)) with (length (g ++ [bar]))
        by (rewrite length_app; simpl; lia).
      replace (g ++ bar :: r) with ((g ++ [bar]) ++ r) by (by rewrite <- app_assoc).
      rewrite drop_app_length, (filter_cons_False P bar), !filter_app by done.
      rewrite (filter_none [bar]) by (by intros x ->%list_elem_of_singleton).
      rewrite (filter_none (py "Abs(")), (filter_none (py ")"));
        [by rewrite !app_nil_r| |].
      * intros x Hx. apply Habs.
        change (py "Abs()") with (py "Abs(" ++ py ")"). apply elem_of_app. auto.
      * intros x Hx. apply Habs.
        change (py "Abs()") with (py "Abs(" ++ py ")"). apply elem_of_app. auto.
    + rewrite !filter_cons, IH, drop_0. done.
Qed.

End KeptCharacters.

Lemma in_normalizer_alphabet (l : pystr) :
  forallb (λ c, contains c normalizer_alphabet) l = true →
  ∀ c, c ∈ l → ¬ (c ∉ normalizer_alphabet).
Proof.
  intros Hall c Hc Hno. apply Hno.
  rewrite forallb_forall in Hall. apply contains_spec, Hall.
  by apply list_elem_of_In.
Qed.


Lemma normalize_filter (s : pystr) :
  filter (λ c, c ∉ normalizer_alphabet) (normalize s) =
    filter (λ c, c ∉ normalizer_alphabet) s.
Proof.
  unfold normalize, re_sub_abs, replace.
  rewrite re_sub_go_filter, drop_0.
  - rewrite replace_go_filter, drop_0; [|done|by apply in_normalizer_alphabet..].
    rewrite replace_go_filter, drop_0; [done|done|by apply in_normalizer_alphabet..].
  - by apply (in_normalizer_alphabet [bar]), list_elem_of_here.
  - by apply in_normalizer_alphabet.
Qed.

Lemma normalize_elem_of (s : pystr) (c : N) :
  c ∉ normalizer_alphabet → (c ∈ normalize s ↔ c ∈ s).
Proof.
  intros Hc.
  assert (∀ l : pystr, c ∈ l ↔ c ∈ filter (λ c, c ∉ normalizer_alphabet) l) as Hin.
  { intros l. rewrite list_elem_of_filter. tauto. }
  by rewrite (Hin (normalize s)), (Hin s), normalize_filter.
Qed.

Lemma normalize_equals_sign (s : pystr) : equals_sign ∈ normalize s ↔ equals_sign ∈ s.
Proof.
  apply normalize_elem_of. intros Hin. apply contains_spec in Hin. discriminate.
Qed.

(** X2. The characters that are not in the alphabet of the normalisation
    are the same, in the same order, before and after it; so such a
    character, the equals sign for one, is in the normalised text exactly
    when it is in the input. *)
Theorem normalize_keeps_other_characters (s : pystr) :
  filter (λ c, c ∉ normalizer_alphabet) (normalize s) =
    filter (λ c, c ∉ normalizer_alphabet) s ∧
  (∀ c, c ∉ normalizer_alphabet → (c ∈ normalize s ↔ c ∈ s)) ∧
  (equals_sign ∈ normalize s ↔ equals_sign ∈ s).
Proof.
  split; [apply normalize_filter|]. split; [apply normalize_elem_of|].
  apply normalize_equals_sign.
Qed.

(** ** The bars *)

Lemma match_abs_not_bar (c : N) (s : pystr) : c ≠ bar → match_abs (c :: s) = None.
Proof. intros Hc. unfold match_abs. by destruct (decide (c = bar)). Qed.

Lemma re_sub_go_prefix (a t : pystr) :
  bar ∉ a → re_sub_go 0 (a ++ t) = a ++ re_sub_go 0 t.
Proof.
  induction a as [|c a IH]; intros Hno; [done|].
  apply not_elem_of_cons in Hno as [Hc Ha].
  change ((c :: a) ++ t) with (c :: (a ++ t)).
  rewrite re_sub_go_head, match_abs_not_bar by done. simpl. f_equal. by apply IH.
Qed.

Lemma re_sub_go_skip_app (p r : pystr) :
  re_sub_go (length p) (p ++ r) = re_sub_go 0 r.
Proof. induction p as [|c p IH]; [by destruct r|]. simpl. apply IH. Qed.

(** X3. A pair of bars around a text that is not empty and holds no bar
    becomes a call of Abs on that text; what stands before it, if it holds
    no bar, is kept, and the rewriting goes on after the closing bar. *)
Theorem re_sub_abs_pair (a g b : pystr) :
  bar ∉ a → g ≠ [] → bar ∉ g →
  re_sub_abs (a ++ bar :: g ++ bar :: b) =
    a ++ py "Abs(" ++ g ++ py ")" ++ re_sub_abs b.
Proof.
  intros Ha Hg Hgb. unfold re_sub_abs.
  rewrite re_sub_go_prefix, re_sub_go_head by done.
  assert (match_abs (bar :: g ++ bar :: b) = Some g) as ->.
  { apply match_abs_spec. split; [done|]. split; [done|]. by exists b. }
  unfold replace_abs. rewrite <- !app_assoc. do 3 f_equal.
  replace (S (length g)) with (length (g ++ [bar]))
    by (rewrite length_app; simpl; lia).
  replace (g ++ bar :: b) with ((g ++ [bar]) ++ b) by (by rewrite <- app_assoc).
  by rewrite re_sub_go_skip_app.
Qed.

Lemma re_sub_abs_pair_witness :
  re_sub_abs (py "2*|x - 3| = |y|") = py "2*Abs(x - 3) = Abs(y)".
Proof.
  pose proof (re_sub_abs_pair (py "2*") (py "x - 3") (py " = |y|")) as Hthm.
  change (py "2*|x - 3| = |y|")
    with (py "2*" ++ bar :: py "x - 3" ++ bar :: py " = |y|").
  rewrite Hthm; [reflexivity| |discriminate|];
    intros Hin; apply contains_spec in Hin; discriminate.
Defined.

(** X4. A bar that no later bar closes stays where it is, and so does the
    first of two bars that stand side by side. *)
Theorem re_sub_abs_unmatched_bar (a b : pystr) :
  bar ∉ a →
  (bar ∉ b → re_sub_abs (a ++ bar :: b) = a ++ bar :: b) ∧
  re_sub_abs (a ++ bar :: bar :: b) = a ++ bar :: re_sub_abs (bar :: b).
Proof.
  intros Ha. unfold re_sub_abs. split.
  - intros Hb. rewrite re_sub_go_prefix, re_sub_go_head by done.
    destruct (match_abs (bar :: b)) as [g|] eqn:Hm.
    + apply match_abs_spec in Hm as (_ & _ & r & [= ->]).
      exfalso. apply Hb. apply elem_of_app; right. apply list_elem_of_here.
    + do 2 f_equal. by apply re_sub_abs_no_bar.
  - rewrite re_sub_go_prefix, re_sub_go_head by done.
    destruct (match_abs (bar :: bar :: b)) as [g|] eqn:Hm; [|done].
    apply match_abs_spec in Hm as (Hg & Hgb & r & [= Hs]).
    destruct g as [|c g]; [done|]. injection Hs as <- _.
    exfalso. apply Hgb, list_elem_of_here.
Qed.

Lemma re_sub_abs_unmatched_bar_witness :
  re_sub_abs (py "x + |y") = py "x + |y" ∧
  re_sub_abs (py "x||y|") = py "x|Abs(y)".
Proof.
  assert (bar ∉ py "x + ") as H1 by (intros Hin; apply contains_spec in Hin; discriminate).
  assert (bar ∉ py "x") as H2 by (intros Hin; apply contains_spec in Hin; discriminate).
  split.
  - apply (proj1 (re_sub_abs_unmatched_bar (py "x + ") (py "y") H1)).
    intros Hin; apply contains_spec in Hin; discriminate.
  - change (py "x||y|") with (py "x" ++ bar :: bar :: py "y|").
    rewrite (proj2 (re_sub_abs_unmatched_bar (py "x") (py "y|") H2)). reflexivity.
Defined.

(** ** The caret and the power operator *)

Lemma startswith_after_caret (p t : pystr) :
  caret ∉ p → 0x2a ∉ p →
  startswith p (replace (py "^") (py "**") t) = startswith p t.
Proof.
  rewrite (replace_single_flat_map caret). revert t.
  induction p as [|a p IH]; intros t Hc Hs; [done|].
  apply not_elem_of_cons in Hc as [Hac Hc]. apply not_elem_of_cons in Hs as [Has Hs].
  destruct t as [|b t]; [done|]. simpl flat_map.
  destruct (decide (b = caret)) as [->|Hb].
  - change (py "**" ++ ?x) with (0x2a :: 0x2a :: x). cbn [startswith].
    destruct (decide (a = 42)) as [->|]; [done|].
    by destruct (decide (a = caret)) as [->|].
  - change ([b] ++ ?x) with (b :: x). cbn [startswith].
    destruct (decide (a = b)); [|done]. by apply IH.
Qed.

(** The two replacements of the normalisation can be made in either
    order. *)
Lemma replace_minus_caret_commute (s : pystr) :
  replace minus_literal (py "-") (replace (py "^") (py "**") s) =
  replace (py "^") (py "**") (replace minus_literal (py "-") s).
Proof.
  remember (length s) as n eqn:Hn. revert s Hn.
  induction n as [n IH] using lt_wf_ind. intros s ->.
  destruct s as [|c s]; [done|].
  destruct (startswith minus_literal (c :: s)) eqn:Hsw.
  - apply startswith_spec in Hsw as [r Hr]. rewrite Hr.
    rewrite (replace_match minus_literal) by done.
    rewrite !(replace_single_flat_map caret), !flat_map_app.
    rewrite <- !(replace_single_flat_map caret (py "**")).
    change (replace [caret] (py "**") minus_literal) with minus_literal.
    change (replace [caret] (py "**") (py "-")) with (py "-").
    rewrite (replace_match minus_literal) by done. f_equal.
    apply (IH (length r)); [|done]. rewrite Hr, length_app. simpl. lia.
  - rewrite (replace_no_match minus_literal _ _ _ Hsw).
    rewrite !(replace_single_flat_map caret). simpl flat_map.
    rewrite <- !(replace_single_flat_map caret (py "**")).
    destruct (decide (c = caret)) as [->|Hc].
    + change (py "**" ++ ?t) with (0x2a :: 0x2a :: t).
      rewrite !(replace_no_match minus_literal) by done.
      do 2 f_equal. apply (IH (length s)); [simpl; lia|done].
    + simpl app. rewrite (replace_no_match minus_literal).
      * f_equal. apply (IH (length s)); [simpl; lia|done].
      * etrans; [|exact Hsw].
        pose proof (startswith_after_caret minus_literal (c :: s)) as Hst.
        rewrite (replace_single_flat_map caret) in Hst. simpl flat_map in Hst.
        destruct (decide (c = caret)); [done|].
        rewrite <- (replace_single_flat_map caret (py "**")) in Hst.
        apply Hst; intros Hin; apply contains_spec in Hin; discriminate.
Qed.

Lemma normalize_after_caret (s : pystr) :
  normalize (replace (py "^") (py "**") s) = normalize s.
Proof.
  unfold normalize. rewrite replace_minus_caret_commute. f_equal.
  apply replace_absent. intros Ho%occurs_singleton. revert Ho.
  apply (replace_single_removes caret).
  intros Hin. apply contains_spec in Hin. discriminate.
Qed.

Section Power.
Context `{Engine}.

(** X5. Writing a power with the caret or with two stars is the same to
    solve_equation: replacing the carets of the input beforehand changes
    neither the normalised text nor the answer. *)
Theorem caret_and_power_agree (s : pystr) :
  normalize (replace (py "^") (py "**") s) = normalize s ∧
  solve_equation (replace (py "^") (py "**") s) = solve_equation s.
Proof.
  split; [apply normalize_after_caret|].
  unfold solve_equation. by rewrite normalize_after_caret.
Qed.

End Power.

(** * Further properties of solve_equation *)

Lemma str_lt_connected (a b : pystr) :
  str_lt a b = false → str_lt b a = false → a = b.
Proof.
  revert b. induction a as [|x a IH]; intros [|y b]; simpl; try done.
  rewrite !orb_false_iff, !andb_false_iff, !N.ltb_ge, !N.eqb_neq.
  intros [Hxy Hab] [Hyx Hba].
  assert (x = y) as -> by lia.
  f_equal. apply IH; [by destruct Hab|by destruct Hba].
Qed.

Lemma collect_Forall2 {A B} (f : A → result B) (l : list A) (items : list B) :
  collect f l = Ok items → Forall2 (λ x y, f x = Ok y) l items.
Proof.
  revert items. induction l as [|x l IH]; intros items; simpl.
  - intros [= <-]. constructor.
  - destruct (f x) as [y|e] eqn:Hx; cbn; [|done].
    destruct (collect f l) as [ys|e]; cbn; [|done].
    intros [= <-]. constructor; [done|by apply IH].
Qed.

Lemma collect_Raise {A B} (f : A → result B) (l : list A) (x : A) (e : exn) :
  x ∈ l → f x = Raise e → ∃ e', collect f l = Raise e'.
Proof.
  intros Hin Hx. induction l as [|a l IH]; [by apply elem_of_nil in Hin|].
  simpl. destruct (f a) as [y|e1] eqn:Ha; cbn; [|eauto].
  apply elem_of_cons in Hin as [->|Hin]; [congruence|].
  destruct (IH Hin) as [e' ->]. cbn. eauto.
Qed.

Section CoreExtras.
Context `{Engine}.

(** X6. A text without an equals sign is parsed as one expression, and
    when the parser rejects it solve_equation raises a ValueError whose
    message is "Could not parse expression: " and the message of the
    parser. *)
Theorem expression_parse_failure (s : pystr) (e : exn) :
  equals_sign ∉ s →
  parse_expr (strip (normalize s)) = Raise e →
  solve_equation s =
    Raise (Exn ValueError (py "Could not parse expression: " ++ exn_str e)).
Proof.
  intros Hno He. unfold solve_equation.
  rewrite parse_equation_without_equals by (by rewrite normalize_equals_sign).
  rewrite He. done.
Qed.

(** X7. With an equals sign, the left side is parsed first: when the
    parser rejects it, or accepts it and rejects the right side,
    solve_equation raises a ValueError whose message is "Could not parse
    equation: " and the message of the parser for that side. *)
Theorem equation_parse_failure (s before after : pystr) :
  split1 equals_sign (normalize s) = [before; after] →
  (∀ e, parse_expr (strip before) = Raise e →
     solve_equation s =
       Raise (Exn ValueError (py "Could not parse equation: " ++ exn_str e))) ∧
  (∀ left_expr e,
     parse_expr (strip before) = Ok left_expr →
     parse_expr (strip after) = Raise e →
     solve_equation s =
       Raise (Exn ValueError (py "Could not parse equation: " ++ exn_str e))).
Proof.
  intros Hsp.
  assert (contains equals_sign (normalize s) = true) as Hc.
  { destruct (contains equals_sign (normalize s)) eqn:Hc; [done|].
    assert (equals_sign ∉ normalize s) as Hno.
    { intros Hin. apply contains_spec in Hin. congruence. }
    rewrite (split1_absent _ _ Hno) in Hsp. done. }
  unfold solve_equation, parse_equation. rewrite Hc, Hsp.
  split; [intros e He|intros l e Hl He].
  - rewrite He. done.
  - rewrite Hl, He. done.
Qed.

(** X8. solve_equation raises the error of the missing variable exactly
    when the text is parsed and the equation has no free symbol, the one
    other way being that [Eq] itself raises an error of that class and
    text on line 49. *)
Theorem no_variable_error_iff (s : pystr) :
  solve_equation s = Raise (Exn ValueError no_variable_message) ↔
  (∃ equation,
     parse_equation (normalize s) = Ok equation ∧ free_symbols equation = ∅)
  ∨ (∃ before after l r,
       normalize s = before ++ equals_sign :: after ∧ (equals_sign ∉ before) ∧
       parse_expr (strip before) = Ok l ∧ parse_expr (strip after) = Ok r ∧
       Eq l r = Raise (Exn ValueError no_variable_message)).
Proof.
  split.
  - unfold solve_equation.
    destruct (parse_equation (normalize s)) as [equation|e1] eqn:Hp; cbn.
    + intros Hr. left. exists equation. split; [done|].
      destruct (decide (free_symbols equation = ∅)) as [|Hne]; [done|].
      destruct (select_var_nonempty equation Hne) as (var & Hv & _).
      rewrite Hv in Hr. cbn in Hr.
      apply reraise_class in Hr as [_ [m Hm]]. vm_compute in Hm. discriminate.
    + intros [= ->]. apply parse_equation_error in Hp as [[_ [m [Hm|Hm]]]|He];
        [vm_compute in Hm; discriminate..|by right].
  - intros [(equation & Hp & Hem)|He].
    + unfold solve_equation. rewrite Hp. cbn. unfold select_var.
      rewrite Hem, elements_empty. by destruct (decide _).
    + by apply solve_equation_Eq_error.
Qed.

(** X9. The variable that is selected is a symbol of the equation, no
    symbol of the equation has a name below its name, and every symbol of
    the equation of which this is true has the same name. *)
Theorem select_var_least_name (equation : Expr) (var : Symbol) :
  select_var equation = Ok var →
  var ∈ free_symbols equation ∧
  (∀ other, other ∈ free_symbols equation →
     str_lt (sym_str other) (sym_str var) = false) ∧
  (∀ least, least ∈ free_symbols equation →
     (∀ other, other ∈ free_symbols equation →
        str_lt (sym_str other) (sym_str least) = false) →
     sym_str least = sym_str var).
Proof.
  intros Hv.
  assert (var ∈ free_symbols equation ∧
          ∀ other, other ∈ free_symbols equation →
            str_lt (sym_str other) (sym_str var) = false) as [Hin Hleast].
  { unfold select_var in Hv.
    destruct (decide (elements (free_symbols equation) = [])) as [|Hne]; [done|].
    destruct (decide (1 < size (free_symbols equation))%nat) as [Hs|Hs].
    - destruct (sorted sym_str (elements (free_symbols equation))) as [|v tl] eqn:Hso;
        [done|].
      injection Hv as ->. split.
      + apply elem_of_elements. rewrite <- (sorted_perm sym_str), Hso.
        apply list_elem_of_here.
      + intros other Ho. apply (sorted_head_least sym_str _ _ _ Hso).
        by apply elem_of_elements.
    - destruct (elements (free_symbols equation)) as [|v [|w tl]] eqn:Hel; [done| |].
      + injection Hv as ->.
        assert (∀ x, x ∈ free_symbols equation → x = var) as Honly.
        { intros x Hx. apply elem_of_elements in Hx. rewrite Hel in Hx.
          by apply list_elem_of_singleton in Hx. }
        split.
        * apply elem_of_elements. rewrite Hel. apply list_elem_of_here.
        * intros other ->%Honly. apply str_lt_irrefl.
      + exfalso. apply Hs. unfold size, set_size. simpl. rewrite Hel. simpl. lia. }
  split; [done|]. split; [done|].
  intros least Hl Hmin. apply str_lt_connected; [by apply Hleast|by apply Hmin].
Qed.

(** X10. No partial answer: when one solution of the list lacks the
    variable, or cannot be formatted, solve_equation raises a ValueError
    whose message starts with "Could not solve equation: ", whatever the
    other solutions are. *)
Theorem formatting_failure_is_an_error
    (s : pystr) (equation : Expr) (var : Symbol)
    (solutions : list (gmap Symbol Expr)) (sol : gmap Symbol Expr) :
  parse_equation (normalize s) = Ok equation →
  select_var equation = Ok var →
  solve_dispatch equation var = Ok solutions →
  sol ∈ solutions →
  sol !! var = None ∨
    (∃ value e, sol !! var = Some value ∧ format_value value = Raise e) →
  ∃ m, solve_equation s =
         Raise (Exn ValueError (py "Could not solve equation: " ++ m)).
Proof.
  intros Hp Hv Hd Hin Hbad.
  assert (∃ e, format_solution var sol = Raise e) as [e He].
  { unfold format_solution, getitem.
    destruct Hbad as [->|(value & e & -> & Hf)]; cbn; [eauto|].
    rewrite Hf. cbn. eauto. }
  rewrite (solve_equation_steps s equation var Hp Hv), Hd. cbn.
  unfold format_result. destruct solutions as [|sol0 rest]; [by apply elem_of_nil in Hin|].
  destruct (decide (length (sol0 :: rest) = 1%nat)) as [Hlen|Hlen].
  - destruct rest; [|done]. apply list_elem_of_singleton in Hin as ->.
    rewrite He. cbn. eauto.
  - destruct (collect_Raise _ _ _ _ Hin He) as [e' ->]. cbn. eauto.
Qed.

(** X11. A text that solve_equation returns is never empty: it is the
    sentence that no solution was found, or it holds a double quote. *)
Theorem answer_is_not_empty (s : pystr) (text : pystr) :
  solve_equation s = Ok text →
  text ≠ [] ∧
  ((∃ var, text = py "No solution found for " ++ sym_str var ++ py ".")
   ∨ dquote ∈ text).
Proof.
  unfold solve_equation.
  destruct (parse_equation (normalize s)) as [equation|] eqn:Hp; cbn; [|done].
  destruct (select_var equation) as [var|] eqn:Hv; cbn; [|done].
  intros Hr%reraise_Ok.
  destruct (solve_dispatch equation var) as [solutions|] eqn:Hd; cbn in Hr; [|done].
  assert (∀ sol t, format_solution var sol = Ok t → t ≠ [] ∧ dquote ∈ t) as Hq.
  { intros sol t. unfold format_solution.
    destruct (getitem sol var) as [value|]; cbn; [|done].
    destruct (format_value value) as [t'|]; cbn; [|done].
    intros [= <-]. unfold quoted. split.
    - intros Hnil. apply (f_equal length) in Hnil.
      rewrite !length_app in Hnil. simpl in Hnil. lia.
    - rewrite !elem_of_app. right; right; left. apply list_elem_of_here. }
  unfold format_result in Hr. destruct solutions as [|sol0 rest].
  - injection Hr as <-. split; [|left; by exists var].
    intros Hnil. discriminate.
  - destruct (decide (length (sol0 :: rest) = 1%nat)) as [Hlen|Hlen].
    + destruct (Hq _ _ Hr). auto.
    + destruct (collect (format_solution var) (sol0 :: rest)) as [items|] eqn:Hc;
        cbn in Hr; [|done].
      injection Hr as <-. apply collect_Forall2 in Hc.
      inversion Hc as [|? t0 ? items' Ht0 Hrest]; subst.
      destruct (Hq _ _ Ht0) as [Hne Hdq].
      destruct items' as [|t1 items'']; simpl.
      * auto.
      * split; [by destruct t0|]. right. apply elem_of_app. by left.
Qed.

End CoreExtras.

(** * Further properties of the handler *)

Lemma lstrip_fixed (t : pystr) :
  (∀ c, head t = Some c → isspace c = false) → lstrip t = t.
Proof.
  destruct t as [|c t]; [done|]. intros Hh. simpl.
  by rewrite (Hh c eq_refl).
Qed.

Lemma strip_idempotent (s : pystr) : strip (strip s) = strip s.
Proof.
  unfold strip at 1. rewrite (lstrip_fixed (strip s)) by apply strip_head.
  unfold rstrip. rewrite lstrip_fixed; [apply reverse_involutive|].
  intros c. rewrite head_reverse. apply strip_last.
Qed.

Lemma lstrip_blank (s : pystr) :
  Forall (λ c, isspace c = true) s → lstrip s = [].
Proof. induction 1 as [|c s Hc _ IH]; [done|]. simpl. by rewrite Hc. Qed.

Lemma strip_nil_iff (s : pystr) :
  strip s = [] ↔ Forall (λ c, isspace c = true) s.
Proof.
  split.
  - intros Hs. destruct (strip_decompose s) as (l & r & Heq & Hl & Hr).
    rewrite Hs in Heq. rewrite Heq. by apply Forall_app.
  - intros Hall. unfold strip. by rewrite lstrip_blank.
Qed.

(** X12. The handler strips its parameter before anything else: white
    space around the equation does not change the response, and a
    stripped text is not changed by stripping it again. *)
Theorem handler_ignores_outer_space (core : pystr → result pystr) (s : pystr) :
  strip (strip s) = strip s ∧
  solve_handler core (Some s) = solve_handler core (Some (strip s)).
Proof.
  split; [apply strip_idempotent|].
  unfold solve_handler. simpl default. by rewrite strip_idempotent.
Qed.

(** X13. A parameter is empty once stripped exactly when all its
    characters are white space, and for such a parameter the response is
    the one of the missing parameter, whatever the core. *)
Theorem blank_parameter_is_missing (s : pystr) :
  (strip s = [] ↔ Forall (λ c, isspace c = true) s) ∧
  (Forall (λ c, isspace c = true) s →
   ∀ core, solve_handler core (Some s) =
     Response [(py "error", py "Missing 'equation' query parameter")] 400).
Proof.
  split; [apply strip_nil_iff|].
  intros Hall core. unfold solve_handler. simpl default.
  apply strip_nil_iff in Hall. rewrite Hall. done.
Qed.

Lemma blank_parameter_is_missing_witness :
  solve_handler (solve_equation (H := Ref.engine)) (Some [0x20; 0x09; 0xa0; 0x3000]) =
    Response [(py "error", py "Missing 'equation' query parameter")] 400.
Proof.
  apply (blank_parameter_is_missing [0x20; 0x09; 0xa0; 0x3000]).
  repeat constructor.
Defined.

(** X14. A response of the handler has one key: "result" with the status
    200, or "error" with the status 400 or 500, and with 500 the message
    starts with "Error solving equation: ". *)
Theorem handler_response_shape (core : pystr → result pystr) (arg : option pystr) :
  (status (solve_handler core arg) = 200 ∧
   ∃ text, body (solve_handler core arg) = [(py "result", text)]) ∨
  (status (solve_handler core arg) = 400 ∧
   ∃ message, body (solve_handler core arg) = [(py "error", message)]) ∨
  (status (solve_handler core arg) = 500 ∧
   ∃ message, body (solve_handler core arg) =
                [(py "error", py "Error solving equation: " ++ message)]).
Proof.
  unfold solve_handler. destruct (decide _); [right; left; eauto|].
  destruct (core _) as [text|[[|name] message]]; simpl; eauto 6.
Qed.

(** * Properties of the response headers *)

Lemma filter_nothing {A} (P : A → Prop) `{∀ x, Decision (P x)} (l : list A) :
  (∀ x, x ∈ l → ¬ P x) → filter P l = [].
Proof.
  induction l as [|a l IH]; intros Hl; [done|].
  rewrite filter_cons_False by (apply Hl, list_elem_of_here).
  apply IH. intros x Hx. apply Hl. by apply elem_of_cons; right.
Qed.

Lemma filter_everything {A} (P : A → Prop) `{∀ x, Decision (P x)} (l : list A) :
  (∀ x, x ∈ l → P x) → filter P l = l.
Proof.
  induction l as [|a l IH]; intros Hl; [done|].
  rewrite filter_cons_True by (apply Hl, list_elem_of_here).
  f_equal. apply IH. intros x Hx. apply Hl. by apply elem_of_cons; right.
Qed.

Lemma length_filter_or {A} (P Q : A → Prop)
    `{∀ x, Decision (P x)} `{∀ x, Decision (Q x)} (l : list A) :
  (∀ x, P x → Q x → False) →
  length (filter (λ x, P x ∨ Q x) l) =
    (length (filter P l) + length (filter Q l))%nat.
Proof.
  intros Hdis. induction l as [|a l IH]; [done|].
  rewrite !filter_cons.
  destruct (decide (P a)) as [Hp|Hp]; destruct (decide (Q a)) as [Hq|Hq];
    destruct (decide (P a ∨ Q a)) as [Hpq|Hpq]; simpl; rewrite ?IH;
    try lia; exfalso; try tauto; eauto.
Qed.

Section HeadersFacts.
Context (lower : pystr → pystr).

Abbreviation named key := (λ t : pystr * pystr, lower t.1 = lower key).

(** After [headers[key] = value] there is one pair of that name. *)
Lemma headers_set_same (headers : list (pystr * pystr)) (key value : pystr) :
  filter (named key) (headers_set lower headers key value) = [(key, value)].
Proof.
  induction headers as [|[k0 v0] rest IH]; simpl.
  - by rewrite filter_cons_True.
  - destruct (decide (lower k0 = lower key)) as [Heq|Hne].
    + rewrite filter_cons_True by done. f_equal.
      apply filter_nothing. intros t [Ht _]%list_elem_of_filter. done.
    + by rewrite filter_cons_False.
Qed.

(** The pairs that [P] selects, when it selects none of that name, are
    not touched. *)
Lemma headers_set_other (P : pystr * pystr → Prop) `{∀ t, Decision (P t)}
    (headers : list (pystr * pystr)) (key value : pystr) :
  (∀ t, P t → lower t.1 ≠ lower key) →
  filter P (headers_set lower headers key value) = filter P headers.
Proof.
  intros HP. induction headers as [|[k0 v0] rest IH]; simpl.
  - rewrite filter_cons_False; [done|]. intros Hk. by apply (HP _ Hk).
  - destruct (decide (lower k0 = lower key)) as [Heq|Hne].
    + rewrite !filter_cons_False.
      * rewrite list_filter_filter. apply list_filter_iff.
        intros t. split; [tauto|]. intros Ht. pose proof (HP _ Ht). tauto.
      * intros Hk. by apply (HP _ Hk).
      * intros Hk. by apply (HP _ Hk).
    + rewrite !filter_cons. by rewrite IH.
Qed.

Lemma headers_get_filter (headers : list (pystr * pystr)) (key : pystr) :
  headers_get lower headers key = snd <$> head (filter (named key) headers).
Proof.
  induction headers as [|[k0 v0] rest IH]; simpl; [done|].
  destruct (decide (lower k0 = lower key)) as [Heq|Hne].
  - by rewrite filter_cons_True.
  - by rewrite filter_cons_False.
Qed.

(** Setting a header that is there once, with that name and value,
    changes nothing. *)
Lemma headers_set_fixed (headers : list (pystr * pystr)) (key value : pystr) :
  filter (named key) headers = [(key, value)] →
  headers_set lower headers key value = headers.
Proof.
  induction headers as [|[k0 v0] rest IH]; simpl; [done|].
  destruct (decide (lower k0 = lower key)) as [Heq|Hne].
  - rewrite filter_cons_True by done. intros [= -> -> Hrest]. f_equal.
    apply filter_everything. intros t Ht Hk.
    assert (t ∈ filter (named key) rest) as Hin by (by apply list_elem_of_filter).
    rewrite Hrest in Hin. by apply elem_of_nil in Hin.
  - rewrite filter_cons_False by done. intros Hrest. f_equal. by apply IH.
Qed.

Lemma add_cors_headers_named (headers : list (pystr * pystr)) :
  cors_names_differ lower →
  filter (named (py "Access-Control-Allow-Origin")) (add_cors_headers lower headers) =
    [(py "Access-Control-Allow-Origin", py "*")] ∧
  filter (named (py "Access-Control-Allow-Methods")) (add_cors_headers lower headers) =
    [(py "Access-Control-Allow-Methods", py "GET, OPTIONS")] ∧
  filter (named (py "Access-Control-Allow-Headers")) (add_cors_headers lower headers) =
    [(py "Access-Control-Allow-Headers", py "Content-Type")].
Proof.
  intros (H12 & H13 & H23). unfold add_cors_headers. cbv zeta.
  split; [|split].
  - rewrite !headers_set_other by (intros t ->; done).
    apply headers_set_same.
  - rewrite headers_set_other by (intros t ->; done).
    apply headers_set_same.
  - apply headers_set_same.
Qed.

(** X15. After [add_cors_headers] the three headers of the cross-origin
    policy have their fixed values, whatever the response held before,
    values for these names in another case included. *)
Theorem cors_headers_are_set (headers : list (pystr * pystr)) :
  cors_names_differ lower →
  headers_get lower (add_cors_headers lower headers) (py "Access-Control-Allow-Origin")
    = Some (py "*") ∧
  headers_get lower (add_cors_headers lower headers) (py "Access-Control-Allow-Methods")
    = Some (py "GET, OPTIONS") ∧
  headers_get lower (add_cors_headers lower headers) (py "Access-Control-Allow-Headers")
    = Some (py "Content-Type").
Proof.
  intros Hd. destruct (add_cors_headers_named headers Hd) as (H1 & H2 & H3).
  rewrite !headers_get_filter, H1, H2, H3. done.
Qed.

(** X16. [add_cors_headers] keeps the other headers of the response as
    they are and in their order, leaves each of its three names once in
    the list, and applied twice gives what it gives applied once. *)
Theorem cors_headers_keep_the_rest (headers : list (pystr * pystr)) :
  cors_names_differ lower →
  filter (λ t, ¬ is_cors_name lower t.1) (add_cors_headers lower headers) =
    filter (λ t, ¬ is_cors_name lower t.1) headers ∧
  length (filter (λ t, is_cors_name lower t.1) (add_cors_headers lower headers)) = 3%nat ∧
  add_cors_headers lower (add_cors_headers lower headers) =
    add_cors_headers lower headers.
Proof.
  intros Hd. pose proof Hd as (H12 & H13 & H23).
  destruct (add_cors_headers_named headers Hd) as (H1 & H2 & H3).
  split; [|split].
  - unfold add_cors_headers. cbv zeta.
    rewrite !headers_set_other; [done|..]; intros t Ht Hk; apply Ht;
      unfold is_cors_name; auto.
  - unfold is_cors_name.
    rewrite length_filter_or by (intros t -> [?|?]; done).
    rewrite length_filter_or by (intros t -> ?; done).
    by rewrite H1, H2, H3.
  - unfold add_cors_headers at 1. cbv zeta.
    rewrite (headers_set_fixed _ _ _ H1), (headers_set_fixed _ _ _ H2).
    apply (headers_set_fixed _ _ _ H3).
Qed.

End HeadersFacts.

(** * The further properties on concrete inputs *)

Lemma normalize_keeps_other_characters_witness :
  0x78 ∈ normalize (py "|x^2| = 4").
Proof.
  apply (proj1 (proj2 (normalize_keeps_other_characters (py "|x^2| = 4"))) 0x78).
  - intros Hin. apply contains_spec in Hin. discriminate.
  - apply contains_spec. reflexivity.
Defined.

Lemma expression_parse_failure_witness :
  solve_equation (H := Ref.engine) (py "x +") =
    Raise (Exn ValueError (py "Could not parse expression: invalid syntax")).
Proof.
  assert (equals_sign ∉ py "x +") as Hno
    by (intros Hin; apply contains_spec in Hin; discriminate).
  rewrite (expression_parse_failure (H := Ref.engine) (py "x +")
             (Exn (OtherException "SyntaxError") (py "invalid syntax"))
             Hno ltac:(vm_compute; reflexivity)).
  reflexivity.
Defined.

Lemma equation_parse_failure_witness :
  solve_equation (H := Ref.engine) (py "x + = 3") =
    Raise (Exn ValueError (py "Could not parse equation: invalid syntax")) ∧
  solve_equation (H := Ref.engine) (py "x = 3 +") =
    Raise (Exn ValueError (py "Could not parse equation: invalid syntax")).
Proof.
  split.
  - rewrite (proj1 (equation_parse_failure (H := Ref.engine)
               (py "x + = 3") (py "x + ") (py " 3") ltac:(reflexivity))
               (Exn (OtherException "SyntaxError") (py "invalid syntax"))
               ltac:(vm_compute; reflexivity)).
    reflexivity.
  - rewrite (proj2 (equation_parse_failure (H := Ref.engine)
               (py "x = 3 +") (py "x ") (py " 3 +") ltac:(reflexivity))
               (Ref.Sym (py "x"))
               (Exn (OtherException "SyntaxError") (py "invalid syntax"))
               ltac:(vm_compute; reflexivity) ltac:(vm_compute; reflexivity)).
    reflexivity.
Defined.

Lemma no_variable_error_iff_witness :
  solve_equation (H := Ref.engine) (py "5") = Raise (Exn ValueError no_variable_message).
Proof.
  apply (no_variable_error_iff (H := Ref.engine) (py "5")).
  left. exists (Ref.Bool false). split; vm_compute; reflexivity.
Defined.

Lemma select_var_least_name_witness :
  py "x" ∈ free_symbols (Engine := Ref.engine)
    (Ref.Equ (Ref.Add (Ref.Sym (py "y")) (Ref.Sym (py "x"))) (Ref.Num 10)).
Proof.
  apply (select_var_least_name (H := Ref.engine)
    (Ref.Equ (Ref.Add (Ref.Sym (py "y")) (Ref.Sym (py "x"))) (Ref.Num 10)) (py "x")).
  vm_compute. reflexivity.
Defined.

Lemma formatting_failure_is_an_error_witness :
  ∃ m, solve_equation (H := partial_engine) (py "x = 1") =
         Raise (Exn ValueError (py "Could not solve equation: " ++ m)).
Proof.
  apply (formatting_failure_is_an_error (H := partial_engine) (py "x = 1")
    (Ref.Equ (Ref.Sym (py "x")) (Ref.Num 1)) (py "x")
    [ {[ py "x" := Ref.Num 1 ]}; ∅ ] ∅).
  - vm_compute. reflexivity.
  - vm_compute. reflexivity.
  - vm_compute. reflexivity.
  - apply elem_of_cons; right. apply list_elem_of_here.
  - left. reflexivity.
Defined.

Lemma answer_is_not_empty_witness :
  py "x = " ++ [dquote] ++ py "5.0" ++ [dquote] ≠ [].
Proof.
  apply (answer_is_not_empty (H := Ref.engine) (py "x + 5 = 10")).
  vm_compute. reflexivity.
Defined.

Lemma cors_headers_are_set_witness :
  headers_get ascii_lower
    (add_cors_headers ascii_lower
       [ (py "Content-Type", py "application/json");
         (py "access-control-allow-origin", py "null");
         (py "ACCESS-CONTROL-ALLOW-ORIGIN", py "https://example.org") ])
    (py "Access-Control-Allow-Origin") = Some (py "*").
Proof.
  apply (cors_headers_are_set ascii_lower).
  repeat split; vm_compute; discriminate.
Defined.

Lemma cors_headers_keep_the_rest_witness :
  add_cors_headers ascii_lower
    (add_cors_headers ascii_lower [ (py "Content-Type", py "application/json") ]) =
  add_cors_headers ascii_lower [ (py "Content-Type", py "application/json") ].
Proof.
  apply (cors_headers_keep_the_rest ascii_lower).
  repeat split; vm_compute; discriminate.
Defined.

(** * White space around the equation *)

Lemma isspace_not_in_alphabet (c : N) :
  isspace c = true → c ∉ normalizer_alphabet.
Proof.
  intros Hs Hin.
  assert (forallb (λ a, negb (isspace a)) normalizer_alphabet = true) as Hall
    by reflexivity.
  rewrite forallb_forall in Hall. apply list_elem_of_In, Hall in Hin.
  by rewrite Hs in Hin.
Qed.

Lemma startswith_head_differs (old : pystr) (c : N) (t : pystr) :
  old ≠ [] → c ∉ old → startswith old (c :: t) = false.
Proof.
  destruct old as [|o old]; [done|]. intros _ Hc. simpl.
  destruct (decide (o = c)) as [->|]; [|done].
  exfalso. apply Hc, list_elem_of_here.
Qed.

Lemma replace_app_l (old new w t : pystr) :
  old ≠ [] → (∀ c, c ∈ w → c ∉ old) →
  replace old new (w ++ t) = w ++ replace old new t.
Proof.
  intros Hold. induction w as [|c w IH]; intros Hw; [done|].
  change ((c :: w) ++ t) with (c :: (w ++ t)).
  rewrite replace_no_match.
  - simpl. f_equal. apply IH. intros x Hx. apply Hw. by apply elem_of_cons; right.
  - apply startswith_head_differs; [done|]. apply Hw, list_elem_of_here.
Qed.

Lemma startswith_app_r (old s w : pystr) :
  (∀ c, c ∈ w → c ∉ old) →
  startswith old (s ++ w) = true → startswith old s = true.
Proof.
  intros Hw. revert s. induction old as [|a old IH]; intros s; [done|].
  destruct s as [|b s].
  - simpl. destruct w as [|c w]; [done|]. simpl.
    destruct (decide (a = c)) as [->|]; [|done].
    exfalso. apply (Hw c); apply list_elem_of_here.
  - simpl. destruct (decide (a = b)); [|done]. apply IH.
    intros c Hc Hin. apply (Hw c Hc). by apply elem_of_cons; right.
Qed.

Lemma replace_app_r (old new w : pystr) :
  old ≠ [] → (∀ c, c ∈ w → c ∉ old) →
  ∀ s, replace old new (s ++ w) = replace old new s ++ w.
Proof.
  intros Hold Hw s. remember (length s) as n eqn:Hn. revert s Hn.
  induction n as [n IH] using lt_wf_ind. intros s ->.
  destruct s as [|c s].
  - simpl. rewrite <- (app_nil_r w) at 1. rewrite replace_app_l by done.
    by rewrite app_nil_r.
  - destruct (startswith old (c :: s)) eqn:Hsw.
    + apply startswith_spec in Hsw as [r Hr]. rewrite Hr, <- app_assoc.
      rewrite !replace_match by done. rewrite <- app_assoc. f_equal.
      apply (IH (length r)); [|done].
      rewrite Hr, length_app. destruct old; [done|]. simpl. lia.
    + change ((c :: s) ++ w) with (c :: (s ++ w)).
      rewrite !replace_no_match.
      * simpl. f_equal. apply (IH (length s)); [simpl; lia|done].
      * done.
      * destruct (startswith old (c :: s ++ w)) eqn:Hsw'; [|done].
        apply (startswith_app_r old (c :: s) w Hw) in Hsw'. congruence.
Qed.

Lemma span_non_bar_app_r (s w : pystr) :
  bar ∉ w →
  span_non_bar (s ++ w) =
    match (span_non_bar s).2 with
    | [] => ((span_non_bar s).1 ++ w, [])
    | _ :: _ => ((span_non_bar s).1, (span_non_bar s).2 ++ w)
    end.
Proof.
  intros Hw. induction s as [|c s IH]; simpl.
  - clear -Hw. induction w as [|a w IH]; [done|].
    apply not_elem_of_cons in Hw as [Ha Hw]. simpl.
    destruct (decide (a = bar)); [done|]. by rewrite (IH Hw).
  - destruct (decide (c = bar)); [done|]. rewrite IH.
    destruct (span_non_bar s) as [g r]. simpl. by destruct r.
Qed.

Lemma match_abs_app_r (s w : pystr) :
  bar ∉ w → s ≠ [] → match_abs (s ++ w) = match_abs s.
Proof.
  intros Hw Hs. destruct s as [|c s]; [done|]. simpl.
  destruct (decide (c = bar)); [|done].
  rewrite span_non_bar_app_r by done.
  destruct (span_non_bar s) as [g r]. simpl.
  destruct r as [|b r]; simpl.
  - destruct (g ++ w); by destruct g.
  - done.
Qed.

Lemma re_sub_abs_app_r (w : pystr) :
  bar ∉ w → ∀ s, re_sub_abs (s ++ w) = re_sub_abs s ++ w.
Proof.
  intros Hw s. unfold re_sub_abs. remember (length s) as n eqn:Hn. revert s Hn.
  induction n as [n IH] using lt_wf_ind. intros s ->.
  destruct s as [|c s]; [by apply re_sub_abs_no_bar|].
  change ((c :: s) ++ w) with (c :: (s ++ w)). rewrite !re_sub_go_head.
  change (c :: (s ++ w)) with ((c :: s) ++ w). rewrite match_abs_app_r by done.
  destruct (match_abs (c :: s)) as [g|] eqn:Hm.
  - apply match_abs_spec in Hm as (_ & _ & r & [= -> ->]).
    replace (S (length g)) with (length (g ++ [bar]))
      by (rewrite length_app; simpl; lia).
    replace ((g ++ bar :: r) ++ w) with ((g ++ [bar]) ++ (r ++ w))
      by (by rewrite <- !app_assoc).
    replace (g ++ bar :: r) with ((g ++ [bar]) ++ r) by (by rewrite <- app_assoc).
    rewrite !re_sub_go_skip_app, <- app_assoc. f_equal.
    apply (IH (length r)); [|done]. simpl. rewrite !length_app. simpl. lia.
  - simpl. f_equal. apply (IH (length s)); [simpl; lia|done].
Qed.

(** White space around a text stays around its normalised form. *)
Lemma normalize_padded (w s w' : pystr) :
  Forall (λ c, isspace c = true) w → Forall (λ c, isspace c = true) w' →
  normalize (w ++ s ++ w') = w ++ normalize s ++ w'.
Proof.
  intros Hw Hw'.
  assert (∀ (l : pystr) c, Forall (λ c, isspace c = true) l → c ∈ l →
            c ∉ normalizer_alphabet) as Hout.
  { intros l c Hl Hc. apply isspace_not_in_alphabet.
    rewrite Forall_forall in Hl. by apply Hl. }
  assert (∀ (l old : pystr), Forall (λ c, isspace c = true) l →
            forallb (λ c, contains c normalizer_alphabet) old = true →
            ∀ c, c ∈ l → c ∉ old) as Hold.
  { intros l old Hl Ho c Hc Hin. apply (Hout l c Hl Hc).
    rewrite forallb_forall in Ho. apply contains_spec, Ho.
    by apply list_elem_of_In. }
  unfold normalize.
  rewrite (replace_app_l minus_literal), (replace_app_r minus_literal);
    [|done|by apply Hold|done|by apply Hold].
  rewrite (replace_app_l (py "^")), (replace_app_r (py "^"));
    [|done|by apply Hold|done|by apply Hold].
  unfold re_sub_abs at 1. rewrite re_sub_go_prefix.
  - f_equal. apply re_sub_abs_app_r.
    intros Hin. apply (Hold w' [bar] Hw' eq_refl bar Hin), list_elem_of_here.
  - intros Hin. apply (Hold w [bar] Hw eq_refl bar Hin), list_elem_of_here.
Qed.

Lemma lstrip_app_blank (w t : pystr) :
  Forall (λ c, isspace c = true) w → lstrip (w ++ t) = lstrip t.
Proof. induction 1 as [|c w Hc _ IH]; [done|]. simpl. by rewrite Hc. Qed.

Lemma lstrip_app_r (t w : pystr) :
  lstrip t ≠ [] → lstrip (t ++ w) = lstrip t ++ w.
Proof.
  induction t as [|c t IH]; [done|]. simpl.
  destruct (isspace c); [apply IH|done].
Qed.

Lemma lstrip_nil_blank (t : pystr) :
  lstrip t = [] → Forall (λ c, isspace c = true) t.
Proof.
  induction t as [|c t IH]; [constructor|]. simpl.
  destruct (isspace c) eqn:Hc; [|done]. intros Ht. constructor; auto.
Qed.

Lemma rstrip_app_blank (t w : pystr) :
  Forall (λ c, isspace c = true) w → rstrip (t ++ w) = rstrip t.
Proof.
  intros Hw. unfold rstrip. rewrite reverse_app, lstrip_app_blank; [done|].
  by apply Forall_reverse.
Qed.

Lemma strip_padded (w t w' : pystr) :
  Forall (λ c, isspace c = true) w → Forall (λ c, isspace c = true) w' →
  strip (w ++ t ++ w') = strip t.
Proof.
  intros Hw Hw'. unfold strip. rewrite lstrip_app_blank by done.
  destruct (decide (lstrip t = [])) as [Ht|Ht].
  - rewrite Ht. apply lstrip_nil_blank in Ht.
    rewrite lstrip_blank; [done|]. by apply Forall_app.
  - rewrite lstrip_app_r by done. by apply rstrip_app_blank.
Qed.

Lemma split1_at (sep : N) (before rest : pystr) :
  sep ∉ before → split1 sep (before ++ sep :: rest) = [before; rest].
Proof.
  induction before as [|c before IH]; intros Hno; simpl.
  - by destruct (decide (sep = sep)).
  - apply not_elem_of_cons in Hno as [Hc Hno].
    destruct (decide (c = sep)) as [->|]; [done|]. by rewrite IH.
Qed.

Section Padding.
Context `{Engine}.

Lemma parse_equation_padded (w text w' : pystr) :
  Forall (λ c, isspace c = true) w → Forall (λ c, isspace c = true) w' →
  parse_equation (w ++ text ++ w') = parse_equation text.
Proof.
  intros Hw Hw'.
  assert (∀ l : pystr, Forall (λ c, isspace c = true) l → equals_sign ∉ l) as Hno.
  { intros l Hl Hin. rewrite Forall_forall in Hl. by apply Hl in Hin. }
  destruct (decide (equals_sign ∈ text)) as [Hin|Hout].
  - destruct (split1_spec _ _ Hin) as (before & after & Hsp & -> & Hb).
    unfold parse_equation.
    assert (contains equals_sign (before ++ equals_sign :: after) = true) as ->
      by (by apply contains_spec).
    assert (contains equals_sign (w ++ (before ++ equals_sign :: after) ++ w') = true)
      as ->.
    { apply contains_spec. apply elem_of_app; right. by apply elem_of_app; left. }
    rewrite Hsp.
    replace (w ++ (before ++ equals_sign :: after) ++ w')
      with ((w ++ before) ++ equals_sign :: (after ++ w'))
      by (by rewrite <- !app_assoc).
    rewrite split1_at.
    + rewrite <- (app_nil_r before) at 1.
      rewrite (strip_padded w before []) by (done || constructor).
      change (after ++ w') with ([] ++ after ++ w').
      rewrite (strip_padded [] after w') by (done || constructor). done.
    + rewrite elem_of_app. intros [?|?]; [by apply (Hno w)|done].
  - unfold parse_equation.
    assert (contains equals_sign text = false) as ->.
    { destruct (contains equals_sign text) eqn:Hc; [|done].
      by apply contains_spec in Hc. }
    assert (contains equals_sign (w ++ text ++ w') = false) as ->.
    { destruct (contains equals_sign (w ++ text ++ w')) eqn:Hc; [|done].
      apply contains_spec in Hc. rewrite !elem_of_app in Hc.
      exfalso. destruct Hc as [?|[?|?]]; [by apply (Hno w)|done|by apply (Hno w')]. }
    by rewrite strip_padded.
Qed.

(** X17. White space before and after the text does not count:
    solve_equation returns or raises the same with it as without it. *)
Theorem outer_space_is_ignored (w s w' : pystr) :
  Forall (λ c, isspace c = true) w → Forall (λ c, isspace c = true) w' →
  solve_equation (w ++ s ++ w') = solve_equation s.
Proof.
  intros Hw Hw'. unfold solve_equation.
  by rewrite normalize_padded, parse_equation_padded.
Qed.

End Padding.

Lemma outer_space_is_ignored_witness :
  solve_equation (H := Ref.engine) (py "  |x - 3| = 5 ") =
    solve_equation (H := Ref.engine) (py "|x - 3| = 5").
Proof.
  apply (outer_space_is_ignored (H := Ref.engine) (py "  ") (py "|x - 3| = 5") (py " "));
    repeat constructor.
Defined.
